(** * Batch processor service: a shallow embedding of
      [apps/api/src/application/shared/batch/batch-processor.service.ts]

    The file follows the TypeScript source top-down: the JavaScript
    primitives the service relies on ([Array.prototype.slice],
    [String.prototype.includes], [toLowerCase]), the data model (the exported
    interfaces), the chunking loop of [processBatch], [isRetryableError],
    [processChunkWithRetry], the scheduling loop of [processBatch], and the
    specializations [bulkInsert], [bulkUpdate], [bulkDelete], [bulkValidate]
    and [processSKUImport].

    Conventions.
    - JavaScript numbers that hold counts, indices and delays are integers [Z].
    - A loop that the source does not bound ([for (i = 0; i < n; i += chunkSize)],
      the [while] of the scheduler) takes fuel, resp. a finite schedule; running
      out is reported, never hidden.
    - Wall-clock readings ([Date.now()]) and the IEEE-754 quantities of the
      progress report ([duration], [chunkTimes], [percentage],
      [estimatedTimeRemaining]) are outside the embedding. *)

From Stdlib Require Import ZArith List String Ascii Bool Lia Permutation.
Import ListNotations.

Local Open Scope Z_scope.

(** ** JavaScript primitives *)

Definition len {A : Type} (l : list A) : Z := Z.of_nat (List.length l).

(** [Array.prototype.slice(start, end)]: a negative bound counts from the end
    of the array, every bound is clamped to [0 .. length]. *)
Definition relative_index (length k : Z) : Z :=
  if k <? 0 then Z.max (length + k) 0 else Z.min k length.

Definition slice {A : Type} (l : list A) (start stop : Z) : list A :=
  let k := relative_index (len l) start in
  let final := relative_index (len l) stop in
  firstn (Z.to_nat (final - k)) (skipn (Z.to_nat k) l).

(** [chunks.entries()]: the chunks paired with their indices. *)
Fixpoint entries_from {A : Type} (i : Z) (l : list A) : list (Z * A) :=
  match l with
  | [] => []
  | x :: l' => (i, x) :: entries_from (i + 1) l'
  end.

Definition entries {A : Type} (l : list A) : list (Z * A) := entries_from 0 l.

(** [String.prototype.toLowerCase], on the ASCII letters. *)
Definition lower_ascii (c : ascii) : ascii :=
  let n := nat_of_ascii c in
  if (65 <=? n)%nat && (n <=? 90)%nat then ascii_of_nat (n + 32) else c.

Fixpoint toLowerCase (s : string) : string :=
  match s with
  | EmptyString => EmptyString
  | String c s' => String (lower_ascii c) (toLowerCase s')
  end.

(** [String.prototype.includes]: [sub] occurs in [s] at some position. *)
Fixpoint includes (s sub : string) : bool :=
  prefix sub s ||
  match s with
  | EmptyString => false
  | String _ s' => includes s' sub
  end.

(** A thrown value, seen through the source's cast [(error as Error)]: an
    object with a [name] and a [message], which may be undefined. *)
Record JsError : Type := { name : string; message : option string }.

(** ** Data model (the exported interfaces) *)

Module BatchError.
Record t (T : Type) : Type := {
  index : Z;
  item : T;
  error : option string;
  retryable : bool
}.
Arguments index {T}.
Arguments item {T}.
Arguments error {T}.
Arguments retryable {T}.
End BatchError.

Module ChunkResult.
Record t (T : Type) : Type := {
  chunkIndex : Z;
  items : list T;
  succeeded : Z;
  failed : Z;
  errors : list (BatchError.t T)
}.
Arguments chunkIndex {T}.
Arguments items {T}.
Arguments succeeded {T}.
Arguments failed {T}.
Arguments errors {T}.
End ChunkResult.

Module BatchProgress.
Record t : Type := {
  total : Z;
  processed : Z;
  succeeded : Z;
  failed : Z;
  currentChunk : Z;
  totalChunks : Z
}.
End BatchProgress.

Module BatchResult.
Record t (T R : Type) : Type := {
  success : bool;
  total : Z;
  succeeded : Z;
  failed : Z;
  errors : list (BatchError.t T);
  results : list R
}.
Arguments success {T R}.
Arguments total {T R}.
Arguments succeeded {T R}.
Arguments failed {T R}.
Arguments errors {T R}.
Arguments results {T R}.
End BatchResult.

(** A callback either returns ([None]) or throws ([Some e]). *)
Definition Callback (A : Type) : Type := A -> option JsError.

(** [abortSignal.aborted], as read at the start of the n-th turn of the
    scheduling loop. *)
Definition AbortSignal : Type := nat -> bool.

Module BatchOptions.
Record t (T : Type) : Type := {
  items : list T;
  chunkSize : option Z;
  concurrency : option Z;
  onProgress : option (Callback BatchProgress.t);
  onChunkComplete : option (Callback (ChunkResult.t T));
  retries : option Z;
  retryDelay : option Z;
  abortSignal : option AbortSignal
}.
Arguments items {T}.
Arguments chunkSize {T}.
Arguments concurrency {T}.
Arguments onProgress {T}.
Arguments onChunkComplete {T}.
Arguments retries {T}.
Arguments retryDelay {T}.
Arguments abortSignal {T}.
End BatchOptions.

Definition DEFAULT_CHUNK_SIZE : Z := 500.
Definition DEFAULT_CONCURRENCY : Z := 3.
Definition DEFAULT_RETRIES : Z := 2.
Definition DEFAULT_RETRY_DELAY : Z := 1000.

(** Destructuring with a default: [const { x = d } = options]. *)
Definition or_default (o : option Z) (d : Z) : Z :=
  match o with
  | Some v => v
  | None => d
  end.

(** ** Chunker: the splitting loop of [processBatch]

    [for (let i = 0; i < items.length; i += chunkSize)
       chunks.push(items.slice(i, i + chunkSize));] *)

Fixpoint chunk_loop {T : Type} (fuel : nat) (items : list T) (chunkSize i : Z)
    (chunks : list (list T)) : option (list (list T)) :=
  match fuel with
  | O => None
  | S fuel' =>
      if i <? len items
      then chunk_loop fuel' items chunkSize (i + chunkSize)
             (chunks ++ [slice items i (i + chunkSize)])
      else Some chunks
  end.

Definition split_chunks {T : Type} (fuel : nat) (items : list T) (chunkSize : Z)
    : option (list (list T)) :=
  chunk_loop fuel items chunkSize 0 [].

(** [ceil(n / s)] for [s >= 1]. *)
Definition ceil_div (n s : Z) : Z := (n + s - 1) / s.

(** ** Retry policy: [isRetryableError] *)

(** [x?.toLowerCase() || '']: an undefined message, like the empty one, reads
    as the empty string. *)
Definition lowered_message (error : JsError) : string :=
  match message error with
  | Some m => toLowerCase m
  | None => EmptyString
  end.

Definition isRetryableError (error : JsError) : bool :=
  let message := lowered_message error in
  includes message "deadlock" ||
  includes message "timeout" ||
  includes message "connection" ||
  includes message "too many connections" ||
  includes message "serialization failure".

(** The substrings [isRetryableError] looks for. *)
Definition transient_markers : list string :=
  ["deadlock"; "timeout"; "connection"; "too many connections";
   "serialization failure"]%string.

(** ** Chunk executor: [processChunkWithRetry] *)

(** What one invocation of the injected processor settles to. *)
Inductive Settled (R : Type) : Type :=
| Resolved (results : list R)
| Rejected (error : JsError).
Arguments Resolved {R}.
Arguments Rejected {R}.

(** The injected processor is an arbitrary asynchronous function.  Within one
    run it is invoked at most once per pair of chunk index and attempt, so a
    run is determined by what each such invocation settles to:
    [processor chunk chunkIndex attempt] is the outcome of the invocation made
    by attempt number [attempt] (counted from 0) on that chunk. *)
Definition Processor (T R : Type) : Type := list T -> Z -> Z -> Settled R.

(** The effects of one chunk execution, in program order: the backoff sleeps
    ([setTimeout(resolve, ms)]) and the logger warnings
    ([Retrying chunk c, attempt a/n]). *)
Inductive Effect : Type :=
| Sleep (ms : Z)
| Warn (chunkIndex attempt attempts : Z).

Definition sleeps (trace : list Effect) : list Z :=
  flat_map (fun e => match e with Sleep ms => [ms] | Warn _ _ _ => [] end) trace.

Section ChunkExecutor.
Context {T R : Type}.
Variable processor : Processor T R.
Variable chunk : list T.
Variables chunkIndex retries retryDelay : Z.

(** [for (let i = 0; i < chunk.length; i++) errors.push({...})], entered
    with [rest] the items from position [i] on. *)
Fixpoint push_errors (lastError : JsError) (isRetryable : bool) (i : Z)
    (rest : list T) (errors : list (BatchError.t T)) : list (BatchError.t T) :=
  match rest with
  | [] => errors
  | item :: rest' =>
      push_errors lastError isRetryable (i + 1) rest'
        (errors ++ [ {| BatchError.index := chunkIndex * len chunk + i;
                        BatchError.item := item;
                        BatchError.error := message lastError;
                        BatchError.retryable := isRetryable |} ])
  end.

(** The [return] after the loop. *)
Definition failed_chunk (errors : list (BatchError.t T)) : ChunkResult.t T :=
  {| ChunkResult.chunkIndex := chunkIndex;
     ChunkResult.items := chunk;
     ChunkResult.succeeded := 0;
     ChunkResult.failed := len chunk;
     ChunkResult.errors := errors |}.

(** [for (let attempt = 0; attempt <= retries; attempt++)], with [remaining]
    the number of turns the loop condition still allows. *)
Fixpoint attempt_loop (remaining : nat) (attempt : Z)
    (errors : list (BatchError.t T)) : ChunkResult.t T * list Effect :=
  match remaining with
  | O => (failed_chunk errors, [])
  | S remaining' =>
      match processor chunk chunkIndex attempt with
      | Resolved results =>
          ({| ChunkResult.chunkIndex := chunkIndex;
              ChunkResult.items := chunk;
              ChunkResult.succeeded := len results;
              ChunkResult.failed := len chunk - len results;
              ChunkResult.errors := errors |}, [])
      | Rejected lastError =>
          let isRetryable := isRetryableError lastError in
          if negb isRetryable || (attempt =? retries)
          then (failed_chunk (push_errors lastError isRetryable 0 chunk errors), [])
          else
            let '(result, trace) := attempt_loop remaining' (attempt + 1) errors in
            (result,
             Sleep (retryDelay * (attempt + 1))
             :: Warn chunkIndex (attempt + 2) (retries + 1) :: trace)
      end
  end.

Definition processChunkWithRetry : ChunkResult.t T * list Effect :=
  attempt_loop (Z.to_nat (retries + 1)) 0 [].
End ChunkExecutor.

(** ** Worker pool: the scheduling loop of [processBatch] *)

(** The state of a promise of [activePromises]: the chunk's
    [processChunkWithRetry(...).then(callback)]. *)
Inductive PromiseState : Type :=
| Pending
| Fulfilled
| RejectedWith (reason : JsError).

Record ActivePromise (T : Type) : Type := {
  result : ChunkResult.t T;
  state : PromiseState
}.
Arguments result {T}.
Arguments state {T}.

Definition is_pending {T : Type} (p : ActivePromise T) : bool :=
  match state p with
  | Pending => true
  | _ => false
  end.

(** What the environment decides during one turn of the scheduling loop:
    - [settles]: the chunks (by index) whose execution completes while the loop
      waits in [await Promise.race(activePromises)], in completion order;
    - [probe]: for a settled promise, whether the clean-up's
      [Promise.race([p.then(() => 'resolved'), Promise.resolve('pending')])]
      observes the settlement.  The answer depends on the order of the promise
      jobs and is left to the schedule; a pending promise is never observed
      as settled. *)
Record Tick : Type := {
  settles : list Z;
  probe : Z -> bool
}.

(** How a call ends: a value is returned, an exception is thrown, the call
    waits for ever on promises that never settle, or the model ran out of
    fuel (resp. of schedule). *)
Inductive Outcome (A : Type) : Type :=
| Returned (value : A)
| Thrown (error : JsError)
| Stuck
| OutOfFuel.
Arguments Returned {A}.
Arguments Thrown {A}.
Arguments Stuck {A}.
Arguments OutOfFuel {A}.

(** The local variables of [processBatch] that the loop mutates, together
    with the arguments the two callbacks have been invoked with. *)
Record Pool (T R : Type) : Type := {
  processingQueue : list (Z * list T);
  activePromises : list (ActivePromise T);
  processedChunks : Z;
  succeeded : Z;
  failed : Z;
  allErrors : list (BatchError.t T);
  allResults : list R;
  progressReports : list BatchProgress.t;
  chunkReports : list (ChunkResult.t T);
  turn : nat
}.
Arguments processingQueue {T R}.
Arguments activePromises {T R}.
Arguments processedChunks {T R}.
Arguments succeeded {T R}.
Arguments failed {T R}.
Arguments allErrors {T R}.
Arguments allResults {T R}.
Arguments progressReports {T R}.
Arguments chunkReports {T R}.
Arguments turn {T R}.

(** What a caller of [processBatch] observes. *)
Record Run (T R : Type) : Type := {
  outcome : Outcome (BatchResult.t T R);
  reported : list BatchProgress.t;
  completed : list (ChunkResult.t T)
}.
Arguments outcome {T R}.
Arguments reported {T R}.
Arguments completed {T R}.

(** [cb?.(x)] *)
Definition call_optional {A : Type} (cb : option (Callback A)) (x : A)
    : option JsError :=
  match cb with
  | Some f => f x
  | None => None
  end.

Definition log_optional {A B : Type} (cb : option B) (log : list A) (x : A)
    : list A :=
  match cb with
  | Some _ => log ++ [x]
  | None => log
  end.

Definition aborted_error : JsError :=
  {| name := "Error"; message := Some "Batch processing aborted" |}%string.

Section WorkerPool.
Context {T R : Type}.
Variable options : BatchOptions.t T.
Variable processor : Processor T R.

Definition items_of : list T := BatchOptions.items options.
Definition chunkSize_of : Z :=
  or_default (BatchOptions.chunkSize options) DEFAULT_CHUNK_SIZE.
Definition concurrency_of : Z :=
  or_default (BatchOptions.concurrency options) DEFAULT_CONCURRENCY.
Definition retries_of : Z :=
  or_default (BatchOptions.retries options) DEFAULT_RETRIES.
Definition retryDelay_of : Z :=
  or_default (BatchOptions.retryDelay options) DEFAULT_RETRY_DELAY.

(** The [ChunkResult] that the promise of an admitted chunk resolves to. *)
Definition chunk_result (entry : Z * list T) : ChunkResult.t T :=
  fst (processChunkWithRetry processor (snd entry) (fst entry)
         retries_of retryDelay_of).

(** The [.then((result) => { ... })] callback of an admitted chunk: fold the
    result into the counters, report progress, report the chunk.  A callback
    that throws rejects the promise; the counters are already updated. *)
Definition on_chunk_result (totalChunks : Z) (st : Pool T R)
    (result : ChunkResult.t T) : Pool T R * PromiseState :=
  let processedChunks' := processedChunks st + 1 in
  let succeeded' := succeeded st + ChunkResult.succeeded result in
  let failed' := failed st + ChunkResult.failed result in
  let progress :=
    {| BatchProgress.total := len items_of;
       BatchProgress.processed := processedChunks' * chunkSize_of;
       BatchProgress.succeeded := succeeded';
       BatchProgress.failed := failed';
       BatchProgress.currentChunk := processedChunks';
       BatchProgress.totalChunks := totalChunks |} in
  let folded (chunkReports' : list (ChunkResult.t T)) : Pool T R :=
    {| processingQueue := processingQueue st;
       activePromises := activePromises st;
       processedChunks := processedChunks';
       succeeded := succeeded';
       failed := failed';
       allErrors := allErrors st ++ ChunkResult.errors result;
       allResults := allResults st;
       progressReports :=
         log_optional (BatchOptions.onProgress options) (progressReports st) progress;
       chunkReports := chunkReports';
       turn := turn st |} in
  match call_optional (BatchOptions.onProgress options) progress with
  | Some e => (folded (chunkReports st), RejectedWith e)
  | None =>
      let st' :=
        folded (log_optional (BatchOptions.onChunkComplete options)
                  (chunkReports st) result) in
      match call_optional (BatchOptions.onChunkComplete options) result with
      | Some e => (st', RejectedWith e)
      | None => (st', Fulfilled)
      end
  end.

Definition with_active (st : Pool T R) (active : list (ActivePromise T))
    : Pool T R :=
  {| processingQueue := processingQueue st;
     activePromises := active;
     processedChunks := processedChunks st;
     succeeded := succeeded st;
     failed := failed st;
     allErrors := allErrors st;
     allResults := allResults st;
     progressReports := progressReports st;
     chunkReports := chunkReports st;
     turn := turn st |}.

Definition is_running (k : Z) (p : ActivePromise T) : bool :=
  (ChunkResult.chunkIndex (result p) =? k) && is_pending p.

(** The first running promise of chunk [k] takes state [s]. *)
Fixpoint mark_settled (k : Z) (s : PromiseState) (active : list (ActivePromise T))
    : list (ActivePromise T) :=
  match active with
  | [] => []
  | p :: rest =>
      if is_running k p
      then {| result := result p; state := s |} :: rest
      else p :: mark_settled k s rest
  end.

(** Chunk [k] completes: its callback runs and its promise settles.  Nothing
    happens when chunk [k] is not running. *)
Definition settle (totalChunks : Z) (k : Z) (st : Pool T R)
    : Pool T R * option PromiseState :=
  match find (is_running k) (activePromises st) with
  | None => (st, None)
  | Some p =>
      let '(st', s) := on_chunk_result totalChunks st (result p) in
      (with_active st' (mark_settled k s (activePromises st')), Some s)
  end.

Definition first_settled (active : list (ActivePromise T)) : option PromiseState :=
  match find (fun p => negb (is_pending p)) active with
  | Some p => Some (state p)
  | None => None
  end.

Fixpoint run_settles (totalChunks : Z) (ks : list Z) (st : Pool T R)
    (winner : option PromiseState) : Pool T R * option PromiseState :=
  match ks with
  | [] => (st, winner)
  | k :: ks' =>
      let '(st', s) := settle totalChunks k st in
      run_settles totalChunks ks' st'
        (match winner with Some _ => winner | None => s end)
  end.

(** [await Promise.race(activePromises)]: the race is won by the first promise
    to settle (an already settled one, in array order, before any other);
    [None] when no active promise is or gets settled. *)
Definition await_race (totalChunks : Z) (tick : Tick) (st : Pool T R)
    : Pool T R * option PromiseState :=
  run_settles totalChunks (settles tick) st (first_settled (activePromises st)).

(** The promise of a chunk at its admission. *)
Definition admitted (entry : Z * list T) : ActivePromise T :=
  {| result := chunk_result entry; state := Pending |}.

(** The inner [while]: chunks are admitted while the queue is not empty and
    fewer than [concurrency] promises are active. *)
Fixpoint admit_chunks (queue : list (Z * list T)) (active : list (ActivePromise T))
    : list (Z * list T) * list (ActivePromise T) :=
  match queue with
  | [] => ([], active)
  | entry :: queue' =>
      if len active <? concurrency_of
      then admit_chunks queue' (active ++ [admitted entry])
      else (queue, active)
  end.

Definition fill (st : Pool T R) : Pool T R :=
  let '(queue, active) := admit_chunks (processingQueue st) (activePromises st) in
  {| processingQueue := queue;
     activePromises := active;
     processedChunks := processedChunks st;
     succeeded := succeeded st;
     failed := failed st;
     allErrors := allErrors st;
     allResults := allResults st;
     progressReports := progressReports st;
     chunkReports := chunkReports st;
     turn := turn st |}.

(** The clean-up [for (let i = activePromises.length - 1; i >= 0; i--)]: the
    promises are probed from the last to the first; one observed as fulfilled
    is spliced out, one observed as rejected makes the [await] throw. *)
Fixpoint reap (probe : Z -> bool) (active : list (ActivePromise T))
    : JsError + list (ActivePromise T) :=
  match active with
  | [] => inr []
  | p :: rest =>
      match reap probe rest with
      | inl e => inl e
      | inr rest' =>
          match state p with
          | Pending => inr (p :: rest')
          | Fulfilled =>
              if probe (ChunkResult.chunkIndex (result p))
              then inr rest' else inr (p :: rest')
          | RejectedWith e =>
              if probe (ChunkResult.chunkIndex (result p))
              then inl e else inr (p :: rest')
          end
      end
  end.

Definition next_turn (st : Pool T R) (active : list (ActivePromise T))
    : Pool T R :=
  {| processingQueue := processingQueue st;
     activePromises := active;
     processedChunks := processedChunks st;
     succeeded := succeeded st;
     failed := failed st;
     allErrors := allErrors st;
     allResults := allResults st;
     progressReports := progressReports st;
     chunkReports := chunkReports st;
     turn := S (turn st) |}.

Definition is_aborted (st : Pool T R) : bool :=
  match BatchOptions.abortSignal options with
  | Some signal => signal (turn st)
  | None => false
  end.

Definition is_empty {A : Type} (l : list A) : bool :=
  match l with
  | [] => true
  | _ => false
  end.

(** [while (processingQueue.length > 0 || activePromises.length > 0)], one
    [Tick] of the schedule per turn. *)
Fixpoint schedule_loop (totalChunks : Z) (schedule : list Tick) (st : Pool T R)
    : Pool T R * Outcome unit :=
  if is_empty (processingQueue st) && is_empty (activePromises st)
  then (st, Returned tt)
  else
    match schedule with
    | [] => (st, OutOfFuel)
    | tick :: schedule' =>
        if is_aborted st then (st, Thrown aborted_error)
        else
          let st1 := fill st in
          if is_empty (activePromises st1)
          then schedule_loop totalChunks schedule' (next_turn st1 (activePromises st1))
          else
            match await_race totalChunks tick st1 with
            | (st2, None) => (st2, Stuck)
            | (st2, Some (RejectedWith e)) => (st2, Thrown e)
            | (st2, Some _) =>
                match reap (probe tick) (activePromises st2) with
                | inl e => (st2, Thrown e)
                | inr active => schedule_loop totalChunks schedule' (next_turn st2 active)
                end
            end
    end.

Definition initial_pool (chunks : list (list T)) : Pool T R :=
  {| processingQueue := entries chunks;
     activePromises := [];
     processedChunks := 0;
     succeeded := 0;
     failed := 0;
     allErrors := [];
     allResults := [];
     progressReports := [];
     chunkReports := [];
     turn := 0 |}.

(** The [return { ... }] of [processBatch]. *)
Definition batch_result (st : Pool T R) : BatchResult.t T R :=
  {| BatchResult.success := failed st =? 0;
     BatchResult.total := len items_of;
     BatchResult.succeeded := succeeded st;
     BatchResult.failed := failed st;
     BatchResult.errors := slice (allErrors st) 0 100;
     BatchResult.results := allResults st |}.

Definition processBatch (fuel : nat) (schedule : list Tick) : Run T R :=
  match split_chunks fuel items_of chunkSize_of with
  | None => {| outcome := OutOfFuel; reported := []; completed := [] |}
  | Some chunks =>
      let '(st, exit) := schedule_loop (len chunks) schedule (initial_pool chunks) in
      {| outcome :=
           match exit with
           | Returned _ => Returned (batch_result st)
           | Thrown e => Thrown e
           | Stuck => Stuck
           | OutOfFuel => OutOfFuel
           end;
         reported := progressReports st;
         completed := chunkReports st |}
  end.
End WorkerPool.

(** ** Notions used in the statements *)

(** The effects of [k] consecutive backoffs, the first one after failed
    attempt [attempt]. *)
Fixpoint backoff_trace (chunkIndex retries retryDelay : Z) (k : nat)
    (attempt : Z) : list Effect :=
  match k with
  | O => []
  | S k' =>
      Sleep (retryDelay * (attempt + 1))
      :: Warn chunkIndex (attempt + 2) (retries + 1)
      :: backoff_trace chunkIndex retries retryDelay k' (attempt + 1)
  end.

(** [sum_over w l]: the sum of [w x] over the elements [x] of [l]. *)
Definition sum_over {A : Type} (w : A -> Z) (l : list A) : Z :=
  fold_right (fun x acc => w x + acc) 0 l.

(** The share of the chunks that are still running in a sum over all chunks:
    a settled promise has already been folded into the counters. *)
Definition running_weight {T : Type} (w : ChunkResult.t T -> Z)
    (active : list (ActivePromise T)) : Z :=
  sum_over (fun p => if is_pending p then w (result p) else 0) active.

(** The counter [acc], the chunks still queued and the chunks still running
    add up to [total]: the accounting invariant of the scheduling loop. *)
Definition accounted {T R : Type} (options : BatchOptions.t T)
    (processor : Processor T R) (w : ChunkResult.t T -> Z)
    (acc : Pool T R -> Z) (total : Z) (st : Pool T R) : Prop :=
  acc st
  + sum_over (fun entry => w (chunk_result options processor entry)) (processingQueue st)
  + running_weight w (activePromises st) = total.

(** No promise has settled and there is work left. *)
Definition all_running {T R : Type} (st : Pool T R) : Prop :=
  Forall (fun p => state p = Pending) (activePromises st) /\
  (processingQueue st <> [] \/ activePromises st <> []).

Definition is_returned {A : Type} (o : Outcome A) : bool :=
  match o with
  | Returned _ => true
  | _ => false
  end.

(** ** Sample jobs, processors and schedules *)

Definition deadlock_error : JsError :=
  {| name := "Error"; message := Some "Deadlock detected" |}%string.

Definition deadlock_query_error : JsError :=
  {| name := "QueryFailedError"; message := Some "Deadlock detected" |}%string.

Definition constraint_error : JsError :=
  {| name := "Error"; message := Some "Unique constraint failed" |}%string.

Definition callback_error : JsError :=
  {| name := "TypeError"; message := Some "progress sink failed" |}%string.

(** A processor that returns its chunk. *)
Definition echo : Processor Z Z := fun chunk _ _ => Resolved chunk.

(** A processor that fails on its first two invocations with a deadlock and
    then returns the chunk. *)
Definition fails_twice : Processor Z Z :=
  fun chunk _ attempt =>
    if attempt <? 2 then Rejected deadlock_error else Resolved chunk.

(** A processor that always fails with a constraint violation. *)
Definition always_fails : Processor Z Z :=
  fun _ _ _ => Rejected constraint_error.

(** A processor that always fails with a deadlock. *)
Definition always_deadlocks : Processor Z Z :=
  fun _ _ _ => Rejected deadlock_error.

(** A processor that fails chunk 1 with a constraint violation and returns
    every other chunk. *)
Definition fails_chunk_one : Processor Z Z :=
  fun chunk chunkIndex _ =>
    if chunkIndex =? 1 then Rejected constraint_error else Resolved chunk.

Definition silent : Callback BatchProgress.t := fun _ => None.

Definition throwing : Callback BatchProgress.t := fun _ => Some callback_error.

(** The items [0, 1, ..., n - 1]. *)
Definition numbers (n : nat) : list Z := map Z.of_nat (seq 0 n).

(** A job over integers with the given items, chunk size and progress
    callback, and defaults everywhere else. *)
Definition job (items : list Z) (chunkSize : Z)
    (onProgress : option (Callback BatchProgress.t)) : BatchOptions.t Z :=
  {| BatchOptions.items := items;
     BatchOptions.chunkSize := Some chunkSize;
     BatchOptions.concurrency := None;
     BatchOptions.onProgress := onProgress;
     BatchOptions.onChunkComplete := None;
     BatchOptions.retries := None;
     BatchOptions.retryDelay := None;
     BatchOptions.abortSignal := None |}.

(** A turn in which the running chunks among the first [n] complete in index
    order and the clean-up observes every settlement. *)
Definition in_order (n : nat) : Tick :=
  {| settles := map Z.of_nat (seq 0 n); probe := fun _ => true |}.

(** A turn in which the running chunks among the first [n] complete in index
    order and the clean-up observes no settlement. *)
Definition unobserved (n : nat) : Tick :=
  {| settles := map Z.of_nat (seq 0 n); probe := fun _ => false |}.

(** What [processBatch] returns for the items 1..5 in chunks of two when
    chunk 1 fails. *)
Definition five_items_result : BatchResult.t Z Z :=
  {| BatchResult.success := false;
     BatchResult.total := 5;
     BatchResult.succeeded := 3;
     BatchResult.failed := 2;
     BatchResult.errors :=
       [ {| BatchError.index := 2; BatchError.item := 3;
            BatchError.error := Some "Unique constraint failed"%string;
            BatchError.retryable := false |};
         {| BatchError.index := 3; BatchError.item := 4;
            BatchError.error := Some "Unique constraint failed"%string;
            BatchError.retryable := false |} ];
     BatchResult.results := [] |}.

(** The result of a job without items. *)
Definition empty_result : BatchResult.t Z Z :=
  {| BatchResult.success := true;
     BatchResult.total := 0;
     BatchResult.succeeded := 0;
     BatchResult.failed := 0;
     BatchResult.errors := [];
     BatchResult.results := [] |}.

(** ** The specializations of [processBatch]

    [bulkInsert], [bulkUpdate], [bulkDelete] and [bulkValidate] call
    [processBatch] with [{ ...options, items, chunkSize }] and a processor that
    talks to the Prisma client or to a caller-supplied validator. *)

(** What an awaited call settles to. *)
Inductive Async (A : Type) : Type :=
| Fulfils (value : A)
| Rejects (reason : JsError).
Arguments Fulfils {A}.
Arguments Rejects {A}.

(** [{ ...options, items, chunkSize }]: the [items] and the [chunkSize] of the
    spread options are overwritten, every other option is passed on.  The
    options argument is a [Partial<BatchOptions<T>>]: whatever [items] it
    holds is never read. *)
Definition with_items_and_chunkSize {T : Type} (options : BatchOptions.t T)
    (items : list T) (chunkSize : Z) : BatchOptions.t T :=
  {| BatchOptions.items := items;
     BatchOptions.chunkSize := Some chunkSize;
     BatchOptions.concurrency := BatchOptions.concurrency options;
     BatchOptions.onProgress := BatchOptions.onProgress options;
     BatchOptions.onChunkComplete := BatchOptions.onChunkComplete options;
     BatchOptions.retries := BatchOptions.retries options;
     BatchOptions.retryDelay := BatchOptions.retryDelay options;
     BatchOptions.abortSignal := BatchOptions.abortSignal options |}.

(** [{ ...options, items, chunkSize, concurrency }] *)
Definition with_concurrency {T : Type} (options : BatchOptions.t T)
    (concurrency : Z) : BatchOptions.t T :=
  {| BatchOptions.items := BatchOptions.items options;
     BatchOptions.chunkSize := BatchOptions.chunkSize options;
     BatchOptions.concurrency := Some concurrency;
     BatchOptions.onProgress := BatchOptions.onProgress options;
     BatchOptions.onChunkComplete := BatchOptions.onChunkComplete options;
     BatchOptions.retries := BatchOptions.retries options;
     BatchOptions.retryDelay := BatchOptions.retryDelay options;
     BatchOptions.abortSignal := BatchOptions.abortSignal options |}.

(** A call to the Prisma client made by a processor.  The client is not part
    of the service; like the processor itself, a call is given by what it
    settles to when made with payload [Q] for chunk [chunkIndex] by attempt
    number [attempt]. *)
Definition DbCall (Q A : Type) : Type := string -> Q -> Z -> Z -> Async A.

(** *** [bulkInsert]

    [createMany model chunk] stands for the transaction
    [tx[model].createMany({ data: chunk, skipDuplicates: true })] and settles
    to [created.count]. *)
Section BulkInsert.
Context {T : Type}.
Variable createMany : DbCall (list T) Z.
Variable model : string.

Definition insert_processor : Processor T T :=
  fun chunk chunkIndex attempt =>
    match createMany model chunk chunkIndex attempt with
    | Fulfils count => Resolved (slice chunk 0 count)
    | Rejects e => Rejected e
    end.

Definition bulkInsert (items : list T) (options : BatchOptions.t T)
    (fuel : nat) (schedule : list Tick) : Run T T :=
  let chunkSize := or_default (BatchOptions.chunkSize options) DEFAULT_CHUNK_SIZE in
  processBatch (with_items_and_chunkSize options items chunkSize)
    insert_processor fuel schedule.
End BulkInsert.

(** *** [bulkUpdate]

    An item is an object with an [id]; [const { id, ...data } = item] splits it
    into the identifier and the remaining fields.  [transaction model updates]
    stands for [prisma.$transaction] over the list of
    [prisma[model].update({ where: { id }, data })]. *)
Module Identified.
Record t (D : Type) : Type := { id : string; data : D }.
Arguments id {D}.
Arguments data {D}.
End Identified.

Section BulkUpdate.
Context {D : Type}.
Variable transaction : DbCall (list (string * D)) unit.
Variable model : string.

Definition update_processor : Processor (Identified.t D) (Identified.t D) :=
  fun chunk chunkIndex attempt =>
    match transaction model
            (map (fun item => (Identified.id item, Identified.data item)) chunk)
            chunkIndex attempt with
    | Fulfils _ => Resolved chunk
    | Rejects e => Rejected e
    end.

Definition bulkUpdate (items : list (Identified.t D))
    (options : BatchOptions.t (Identified.t D))
    (fuel : nat) (schedule : list Tick) : Run (Identified.t D) (Identified.t D) :=
  let chunkSize := or_default (BatchOptions.chunkSize options) 100 in
  processBatch (with_items_and_chunkSize options items chunkSize)
    update_processor fuel schedule.
End BulkUpdate.

(** *** [bulkDelete]

    [deleteMany model ids] stands for
    [prisma[model].deleteMany({ where: { id: { in: ids } } })] and settles to
    the number of deleted rows, which the processor does not read. *)
Section BulkDelete.
Variable deleteMany : DbCall (list string) Z.
Variable model : string.

Definition delete_processor : Processor string string :=
  fun chunk chunkIndex attempt =>
    match deleteMany model chunk chunkIndex attempt with
    | Fulfils _ => Resolved chunk
    | Rejects e => Rejected e
    end.

Definition bulkDelete (ids : list string) (options : BatchOptions.t string)
    (fuel : nat) (schedule : list Tick) : Run string string :=
  let chunkSize := or_default (BatchOptions.chunkSize options) 1000 in
  processBatch (with_items_and_chunkSize options ids chunkSize)
    delete_processor fuel schedule.
End BulkDelete.

(** *** [bulkValidate] *)

(** A promise that settles at some time: [Promise.all] rejects with the reason
    of the promise that rejects first. *)
Record Settlement (A : Type) : Type := {
  settled_at : nat;
  settled_to : Async A
}.
Arguments settled_at {A}.
Arguments settled_to {A}.

(** The earliest rejection among [ps], the first in array order among those
    of the same time. *)
Fixpoint first_rejection {A : Type} (ps : list (Settlement A))
    : option (nat * JsError) :=
  match ps with
  | [] => None
  | p :: ps' =>
      match settled_to p, first_rejection ps' with
      | Fulfils _, later => later
      | Rejects e, None => Some (settled_at p, e)
      | Rejects e, Some (t, e') =>
          if (settled_at p <=? t)%nat then Some (settled_at p, e) else Some (t, e')
      end
  end.

Fixpoint fulfilled_values {A : Type} (ps : list (Settlement A)) : list A :=
  match ps with
  | [] => []
  | p :: ps' =>
      match settled_to p with
      | Fulfils v => v :: fulfilled_values ps'
      | Rejects _ => fulfilled_values ps'
      end
  end.

(** [Promise.all(ps)]: the values in array order when every promise fulfils,
    the first rejection otherwise. *)
Definition Promise_all {A : Type} (ps : list (Settlement A)) : Async (list A) :=
  match first_rejection ps with
  | Some (_, e) => Rejects e
  | None => Fulfils (fulfilled_values ps)
  end.

(** The caller's validator: what [validator(item, index)] settles to, and
    when, if called by attempt number [attempt] of the item's chunk. *)
Definition Validator (T : Type) : Type := T -> Z -> Z -> Settlement (list string).

(** The element [{ item, errors }] of the processor's return value. *)
Record Validation (T : Type) : Type := {
  validated : T;
  messages : list string
}.
Arguments validated {T}.
Arguments messages {T}.

Section BulkValidate.
Context {T : Type}.
Variable validator : Validator T.

(** The arguments of the validator calls made for a chunk:
    [(item, chunkIndex * chunkSize + i)] for the item at position [i]. *)
Definition validator_calls (chunkSize : Z) (chunk : list T) (chunkIndex : Z)
    : list (T * Z) :=
  map (fun entry => (snd entry, chunkIndex * chunkSize + fst entry)) (entries chunk).

(** [async (item, i) => { ...; return { item, errors } }] *)
Definition validate_item (attempt : Z) (call : T * Z) : Settlement (Validation T) :=
  let s := validator (fst call) (snd call) attempt in
  {| settled_at := settled_at s;
     settled_to :=
       match settled_to s with
       | Fulfils errors => Fulfils {| validated := fst call; messages := errors |}
       | Rejects e => Rejects e
       end |}.

Definition validate_processor (chunkSize : Z) : Processor T (Validation T) :=
  fun chunk chunkIndex attempt =>
    match Promise_all (map (validate_item attempt)
                         (validator_calls chunkSize chunk chunkIndex)) with
    | Fulfils results => Resolved results
    | Rejects e => Rejected e
    end.

Definition bulkValidate (items : list T) (options : BatchOptions.t T)
    (fuel : nat) (schedule : list Tick) : Run T (Validation T) :=
  let chunkSize := or_default (BatchOptions.chunkSize options) 1000 in
  let concurrency := or_default (BatchOptions.concurrency options) 5 in
  processBatch
    (with_concurrency (with_items_and_chunkSize options items chunkSize) concurrency)
    (validate_processor chunkSize) fuel schedule.
End BulkValidate.

(** ** Further notions used in the statements *)

(** The waits [retryDelay * 1, ..., retryDelay * m] of [m] backoffs. *)
Definition linear_backoff (retryDelay : Z) (m : nat) : list Z :=
  map (fun a => retryDelay * Z.of_nat a) (seq 1 m).

(** The errors [push_errors] records for a chunk whose last failure is
    [lastError]. *)
Definition item_errors {T : Type} (chunk : list T) (chunkIndex : Z)
    (lastError : JsError) : list (BatchError.t T) :=
  map (fun entry =>
         {| BatchError.index := chunkIndex * len chunk + fst entry;
            BatchError.item := snd entry;
            BatchError.error := message lastError;
            BatchError.retryable := isRetryableError lastError |})
      (entries chunk).

(** The variables of [processBatch] that the [.then] callbacks write. *)
Definition counters {T R : Type} (st : Pool T R) :=
  (processedChunks st, succeeded st, failed st, allErrors st, allResults st,
   progressReports st, chunkReports st).

(** The running promises of [activePromises]. *)
Definition running {T : Type} (active : list (ActivePromise T))
    : list (ChunkResult.t T) :=
  map result (filter is_pending active).

(** The result of a job without items, whatever the types. *)
Definition nothing_done {T R : Type} : BatchResult.t T R :=
  {| BatchResult.success := true;
     BatchResult.total := 0;
     BatchResult.succeeded := 0;
     BatchResult.failed := 0;
     BatchResult.errors := [];
     BatchResult.results := [] |}.

(** A progress report is consistent with a job of [n] chunks. *)
Definition report_of {T : Type} (options : BatchOptions.t T) (n : Z)
    (p : BatchProgress.t) : Prop :=
  BatchProgress.totalChunks p = n /\
  BatchProgress.total p = len (BatchOptions.items options) /\
  BatchProgress.processed p = BatchProgress.currentChunk p * chunkSize_of options.

(** ** Further sample jobs *)

(** A job without items whose every other option is hostile: a chunk size and
    a concurrency that are not positive, callbacks that throw, no retry, a
    signal that is aborted from the start. *)
Definition hostile_empty_job : BatchOptions.t Z :=
  {| BatchOptions.items := [];
     BatchOptions.chunkSize := Some (-3);
     BatchOptions.concurrency := Some 0;
     BatchOptions.onProgress := Some throwing;
     BatchOptions.onChunkComplete := Some (fun _ => Some callback_error);
     BatchOptions.retries := Some (-1);
     BatchOptions.retryDelay := Some 0;
     BatchOptions.abortSignal := Some (fun _ => true) |}.

(** The job [job items chunkSize None] with the given abort signal,
    concurrency, retry budget and chunk callback. *)
Definition tuned_job (items : list Z) (chunkSize : Z) (concurrency retries : option Z)
    (onChunkComplete : option (Callback (ChunkResult.t Z)))
    (abortSignal : option AbortSignal) : BatchOptions.t Z :=
  {| BatchOptions.items := items;
     BatchOptions.chunkSize := Some chunkSize;
     BatchOptions.concurrency := concurrency;
     BatchOptions.onProgress := None;
     BatchOptions.onChunkComplete := onChunkComplete;
     BatchOptions.retries := retries;
     BatchOptions.retryDelay := None;
     BatchOptions.abortSignal := abortSignal |}.

Definition quiet : Callback (ChunkResult.t Z) := fun _ => None.

(** A turn in which chunk 2 completes before chunk 0 and chunk 1, and the
    clean-up observes every settlement. *)
Definition out_of_order : Tick :=
  {| settles := [2; 0; 1]; probe := fun _ => true |}.

(** Three items, all failed, no error listed. *)
Definition three_failed_result : BatchResult.t Z Z :=
  {| BatchResult.success := false;
     BatchResult.total := 3;
     BatchResult.succeeded := 0;
     BatchResult.failed := 3;
     BatchResult.errors := [];
     BatchResult.results := [] |}.

(** A validator that complains about every item. *)
Definition complaining : Validator Z :=
  fun _ _ _ => {| settled_at := 0; settled_to := Fulfils ["is required"%string] |}.

(** Three items, all succeeded, nothing listed. *)
Definition complaints_result : BatchResult.t Z (Validation Z) :=
  {| BatchResult.success := true;
     BatchResult.total := 3;
     BatchResult.succeeded := 3;
     BatchResult.failed := 0;
     BatchResult.errors := [];
     BatchResult.results := [] |}.

(** A table in which one row of every chunk is new and the others are
    skipped as duplicates. *)
Definition one_new_row : DbCall (list Z) Z :=
  fun _ chunk _ _ => Fulfils (Z.min 1 (len chunk)).

(** A transaction that fails with a constraint violation when it updates the
    row ["b"], and succeeds otherwise. *)
Definition rejects_row_b : DbCall (list (string * Z)) unit :=
  fun _ updates _ _ =>
    if existsb (fun update => String.eqb (fst update) "b") updates
    then Rejects constraint_error
    else Fulfils tt.

Definition rows_abc : list (Identified.t Z) :=
  [ {| Identified.id := "a"; Identified.data := 1 |};
    {| Identified.id := "b"; Identified.data := 2 |};
    {| Identified.id := "c"; Identified.data := 3 |} ].

(** A table without any of the rows asked for: nothing is deleted. *)
Definition nothing_deleted : DbCall (list string) Z :=
  fun _ _ _ _ => Fulfils 0.

(** The options [{ chunkSize }], for items of any type. *)
Definition only_chunkSize {T : Type} (chunkSize : Z) : BatchOptions.t T :=
  {| BatchOptions.items := [];
     BatchOptions.chunkSize := Some chunkSize;
     BatchOptions.concurrency := None;
     BatchOptions.onProgress := None;
     BatchOptions.onChunkComplete := None;
     BatchOptions.retries := None;
     BatchOptions.retryDelay := None;
     BatchOptions.abortSignal := None |}.

(** One of three rows inserted. *)
Definition one_inserted_result : BatchResult.t Z Z :=
  {| BatchResult.success := false;
     BatchResult.total := 3;
     BatchResult.succeeded := 2;
     BatchResult.failed := 1;
     BatchResult.errors := [];
     BatchResult.results := [] |}.

(** Two ids, both counted deleted. *)
Definition two_deleted_result : BatchResult.t string string :=
  {| BatchResult.success := true;
     BatchResult.total := 2;
     BatchResult.succeeded := 2;
     BatchResult.failed := 0;
     BatchResult.errors := [];
     BatchResult.results := [] |}.

(** *** [processSKUImport]

    [sku_item proposalId item] stands for the object literal built from an
    item (its fields copied, [margin] and [orderValue] computed in floating
    point, which is not modelled).  [transaction proposalId skuItems] stands
    for the one [prisma.$transaction] that inserts the rows with
    [skipDuplicates], aggregates the proposal's rows and updates the
    proposal's totals; the processor reads nothing of what it returns. *)
Section SKUImport.
Context {T S : Type}.
Variable sku_item : string -> T -> S.
Variable transaction : DbCall (list S) unit.

Definition import_processor (proposalId : string) : Processor T T :=
  fun chunk chunkIndex attempt =>
    match transaction proposalId (map (sku_item proposalId) chunk)
            chunkIndex attempt with
    | Fulfils _ => Resolved chunk
    | Rejects e => Rejected e
    end.

Definition processSKUImport (proposalId : string) (items : list T)
    (options : BatchOptions.t T) (fuel : nat) (schedule : list Tick) : Run T T :=
  let chunkSize := or_default (BatchOptions.chunkSize options) 500 in
  processBatch (with_items_and_chunkSize options items chunkSize)
    (import_processor proposalId) fuel schedule.
End SKUImport.

Definition is_thrown {A : Type} (o : Outcome A) : bool :=
  match o with
  | Thrown _ => true
  | _ => false
  end.

(** No promise of [activePromises] is rejected. *)
Definition none_rejected {T : Type} (active : list (ActivePromise T)) : Prop :=
  Forall (fun p => forall e, state p <> RejectedWith e) active.

(** A transaction that commits whatever it is given. *)
Definition commits : DbCall (list Z) unit := fun _ _ _ _ => Fulfils tt.

(** Three items, all counted imported. *)
Definition three_imported_result : BatchResult.t Z Z :=
  {| BatchResult.success := true;
     BatchResult.total := 3;
     BatchResult.succeeded := 3;
     BatchResult.failed := 0;
     BatchResult.errors := [];
     BatchResult.results := [] |}.

(** * Properties *)

(** ** Properties of the JavaScript primitives *)

Lemma len_app {A : Type} (l1 l2 : list A) : len (l1 ++ l2) = len l1 + len l2.
Proof. unfold len. rewrite length_app. lia. Qed.

Lemma len_nonneg {A : Type} (l : list A) : 0 <= len l.
Proof. unfold len. lia. Qed.

Lemma len_cons {A : Type} (x : A) (l : list A) : len (x :: l) = len l + 1.
Proof. unfold len. simpl List.length. lia. Qed.

Lemma firstn_clamp {A : Type} (n : nat) (l : list A) :
  firstn (Nat.min n (List.length l)) l = firstn n l.
Proof.
  destruct (Nat.le_ge_cases n (List.length l)) as [Hle | Hge].
  - now rewrite Nat.min_l.
  - rewrite Nat.min_r by assumption.
    now rewrite firstn_all, firstn_all2.
Qed.

(** Inside the array, [slice(i, i + s)] is the next [s] items from [i] on. *)
Lemma slice_window {A : Type} (l : list A) (i s : Z) :
  0 <= i <= len l -> 0 <= s ->
  slice l i (i + s) = firstn (Z.to_nat s) (skipn (Z.to_nat i) l).
Proof.
  intros Hi Hs. unfold slice, relative_index.
  assert (Hi0 : (i <? 0) = false) by (apply Z.ltb_ge; lia).
  assert (His0 : (i + s <? 0) = false) by (apply Z.ltb_ge; lia).
  rewrite Hi0, His0.
  replace (Z.min i (len l)) with i by lia.
  rewrite <- (firstn_clamp (Z.to_nat s)).
  f_equal. rewrite length_skipn. unfold len in *. lia.
Qed.

Lemma slice_window_length {A : Type} (l : list A) (i s : Z) :
  0 <= i <= len l -> 0 <= s ->
  len (slice l i (i + s)) = Z.min s (len l - i).
Proof.
  intros Hi Hs. rewrite slice_window by assumption.
  unfold len in *. rewrite length_firstn, length_skipn. lia.
Qed.

(** ** The chunking loop *)

Section Chunker.
Context {T : Type}.
Variable items : list T.
Variable chunkSize : Z.

Lemma chunk_loop_acc (fuel : nat) : forall i chunks,
  chunk_loop fuel items chunkSize i chunks =
  option_map (app chunks) (chunk_loop fuel items chunkSize i []).
Proof.
  induction fuel as [| fuel IH]; intros i chunks; simpl; [reflexivity |].
  destruct (i <? len items).
  - rewrite (IH _ (chunks ++ _)), (IH _ [_]).
    destruct (chunk_loop fuel items chunkSize (i + chunkSize) []); simpl;
      [now rewrite <- app_assoc | reflexivity].
  - simpl. now rewrite app_nil_r.
Qed.

Lemma chunk_loop_step (fuel : nat) (i : Z) :
  chunk_loop (S fuel) items chunkSize i [] =
  if i <? len items
  then option_map (cons (slice items i (i + chunkSize)))
         (chunk_loop fuel items chunkSize (i + chunkSize) [])
  else Some [].
Proof.
  simpl. destruct (i <? len items); [| reflexivity].
  now rewrite chunk_loop_acc.
Qed.

(** More fuel never changes a result. *)
Lemma chunk_loop_fuel_mono (fuel : nat) : forall fuel' i chunks,
  (fuel <= fuel')%nat ->
  chunk_loop fuel items chunkSize i [] = Some chunks ->
  chunk_loop fuel' items chunkSize i [] = Some chunks.
Proof.
  induction fuel as [| fuel IH]; intros fuel' i chunks Hle Hrun; [discriminate |].
  destruct fuel' as [| fuel']; [lia |].
  rewrite chunk_loop_step in *.
  destruct (i <? len items); [| assumption].
  destruct (chunk_loop fuel items chunkSize (i + chunkSize) []) as [rest |] eqn:Hrest;
    [| discriminate].
  rewrite (IH fuel' _ rest) by (assumption || lia). assumption.
Qed.

Hypothesis chunkSize_pos : 1 <= chunkSize.

Lemma ceil_div_step (n : Z) :
  1 <= n -> ceil_div n chunkSize = 1 + ceil_div (Z.max 0 (n - chunkSize)) chunkSize.
Proof.
  intros Hn. unfold ceil_div.
  destruct (Z.le_gt_cases chunkSize n) as [Hge | Hlt].
  - replace (Z.max 0 (n - chunkSize)) with (n - chunkSize) by lia.
    replace (n + chunkSize - 1) with (n - chunkSize + chunkSize - 1 + 1 * chunkSize) by lia.
    rewrite Z.div_add by lia. lia.
  - replace (Z.max 0 (n - chunkSize)) with 0 by lia.
    rewrite (Z.div_small (0 + chunkSize - 1)) by lia.
    symmetry. apply (Z.div_unique _ _ 1 (n - 1)); lia.
Qed.

Lemma ceil_div_0 : ceil_div 0 chunkSize = 0.
Proof. unfold ceil_div. apply Z.div_small. lia. Qed.

(** With a positive chunk size the loop ends within [length items + 1] turns. *)
Lemma chunk_loop_total (fuel : nat) : forall i,
  0 <= i -> Z.max 0 (len items - i) < Z.of_nat fuel ->
  exists chunks, chunk_loop fuel items chunkSize i [] = Some chunks.
Proof.
  induction fuel as [| fuel IH]; intros i Hi Hfuel.
  - lia.
  - rewrite chunk_loop_step.
    destruct (Z.ltb_spec i (len items)) as [Hlt | Hge]; [| now exists []].
    destruct (IH (i + chunkSize)) as [rest Hrest]; [lia | lia |].
    rewrite Hrest. now eexists.
Qed.

(** What the loop has built when it ends. *)
Lemma chunk_loop_sound (fuel : nat) : forall i chunks,
  0 <= i ->
  chunk_loop fuel items chunkSize i [] = Some chunks ->
  List.concat chunks = skipn (Z.to_nat i) items /\
  len chunks = ceil_div (Z.max 0 (len items - i)) chunkSize /\
  forall j, (j < List.length chunks)%nat ->
    i + Z.of_nat j * chunkSize < len items /\
    nth j chunks [] =
      slice items (i + Z.of_nat j * chunkSize) (i + Z.of_nat j * chunkSize + chunkSize).
Proof.
  induction fuel as [| fuel IH]; intros i chunks Hi Hrun; [discriminate |].
  rewrite chunk_loop_step in Hrun.
  destruct (Z.ltb_spec i (len items)) as [Hlt | Hge].
  - destruct (chunk_loop fuel items chunkSize (i + chunkSize) []) as [rest |] eqn:Hrest;
      [| discriminate].
    injection Hrun as <-.
    assert (Hi' : 0 <= i + chunkSize) by lia.
    destruct (IH _ _ Hi' Hrest) as (Hcat & Hlen & Hnth).
    split; [| split].
    + simpl. rewrite Hcat, slice_window by lia.
      rewrite <- (firstn_skipn (Z.to_nat chunkSize) (skipn (Z.to_nat i) items)) at 2.
      f_equal. rewrite skipn_skipn. f_equal. lia.
    + rewrite len_cons, Hlen.
      rewrite (ceil_div_step (Z.max 0 (len items - i))) by lia.
      replace (Z.max 0 (len items - i) - chunkSize)
        with (len items - (i + chunkSize)) by lia.
      lia.
    + intros [| j] Hj; cbn [nth List.length] in Hj |- *.
      * replace (i + Z.of_nat 0 * chunkSize) with i by lia. now split.
      * apply Nat.succ_lt_mono in Hj. destruct (Hnth j Hj) as [Hin Heq].
        replace (i + Z.of_nat (S j) * chunkSize)
          with (i + chunkSize + Z.of_nat j * chunkSize) by lia.
        now split.
  - injection Hrun as <-.
    split; [| split].
    + simpl. symmetry. apply skipn_all2. unfold len in Hge. lia.
    + replace (Z.max 0 (len items - i)) with 0 by lia. now rewrite ceil_div_0.
    + simpl. intros j Hj. lia.
Qed.
End Chunker.

(** With a chunk size that is not positive the loop never leaves a non-empty
    array: the index never grows. *)
Lemma chunk_loop_nonpositive {T : Type} (items : list T) (chunkSize : Z) (fuel : nat) :
  forall i chunks,
  chunkSize <= 0 -> i <= 0 -> items <> [] ->
  chunk_loop fuel items chunkSize i chunks = None.
Proof.
  induction fuel as [| fuel IH]; intros i chunks Hsize Hi Hitems; [reflexivity |].
  simpl. destruct (Z.ltb_spec i (len items)) as [Hlt | Hge].
  - apply IH; (assumption || lia).
  - destruct items; [congruence |]. rewrite len_cons in Hge.
    pose proof (len_nonneg items). lia.
Qed.

Lemma split_chunks_empty {T : Type} (chunkSize : Z) (fuel : nat) :
  split_chunks (S fuel) (@nil T) chunkSize = Some [].
Proof. reflexivity. Qed.

Lemma len_concat {A : Type} (ls : list (list A)) :
  len (List.concat ls) = fold_right Z.add 0 (map len ls).
Proof.
  induction ls as [| l ls IH]; [reflexivity |].
  simpl. now rewrite len_app, IH.
Qed.

(** Whatever the chunk size, chunks that have been built partition the items. *)
Lemma split_chunks_concat {T : Type} (items : list T) (chunkSize : Z) (fuel : nat)
    (chunks : list (list T)) :
  split_chunks fuel items chunkSize = Some chunks ->
  List.concat chunks = items.
Proof.
  unfold split_chunks. intros Hrun.
  destruct (Z.le_gt_cases 1 chunkSize) as [Hpos | Hneg].
  - now destruct (chunk_loop_sound items chunkSize Hpos fuel 0 chunks (Z.le_refl 0) Hrun).
  - destruct items as [| x items].
    + destruct fuel; [discriminate |]. simpl in Hrun. now injection Hrun as <-.
    + rewrite chunk_loop_nonpositive in Hrun; [discriminate | lia | lia | discriminate].
Qed.

Lemma split_chunks_nonempty {T : Type} (items : list T) (chunkSize : Z) (fuel : nat)
    (chunks : list (list T)) :
  split_chunks fuel items chunkSize = Some chunks ->
  items <> [] -> chunks <> [].
Proof.
  intros Hrun Hitems ->. apply split_chunks_concat in Hrun. simpl in Hrun. congruence.
Qed.

(** C2. For every item list of length N and every chunk size S >= 1 the
    chunking loop of [processBatch] ends (within N + 1 turns) with exactly
    ceil(N / S) chunks; chunk number j is the contiguous slice of S items that
    starts at position j * S, complete except possibly for the last chunk,
    which holds between 1 and S items; and the chunks concatenated in index
    order are the original sequence. *)
Theorem chunker_partitions {T : Type} (items : list T) (chunkSize : Z) :
  1 <= chunkSize ->
  exists chunks : list (list T),
    (forall fuel, (List.length items < fuel)%nat ->
       split_chunks fuel items chunkSize = Some chunks) /\
    (forall fuel chunks', split_chunks fuel items chunkSize = Some chunks' ->
       chunks' = chunks) /\
    len chunks = ceil_div (len items) chunkSize /\
    (forall j, (j < List.length chunks)%nat ->
       nth j chunks [] =
         firstn (Z.to_nat chunkSize) (skipn (j * Z.to_nat chunkSize) items) /\
       1 <= len (nth j chunks []) <= chunkSize /\
       ((S j < List.length chunks)%nat -> len (nth j chunks []) = chunkSize)) /\
    List.concat chunks = items.
Proof.
  intros Hpos.
  destruct (chunk_loop_total items chunkSize Hpos (S (List.length items)) 0)
    as [chunks Hrun]; [lia | unfold len; lia |].
  assert (Hmono : forall fuel, (List.length items < fuel)%nat ->
            split_chunks fuel items chunkSize = Some chunks).
  { intros fuel Hfuel. unfold split_chunks.
    apply (chunk_loop_fuel_mono items chunkSize (S (List.length items))); [lia | exact Hrun]. }
  destruct (chunk_loop_sound items chunkSize Hpos _ 0 chunks (Z.le_refl 0) Hrun)
    as (Hcat & Hlen & Hnth).
  exists chunks. split; [exact Hmono |]. split; [| split; [| split]].
  - intros fuel chunks' Hrun'.
    pose proof (chunk_loop_fuel_mono items chunkSize fuel
                  (Nat.max fuel (S (List.length items))) 0 chunks'
                  (Nat.le_max_l _ _) Hrun') as H1.
    unfold split_chunks in Hmono.
    rewrite Hmono in H1 by lia. congruence.
  - rewrite Hlen. f_equal. pose proof (len_nonneg items). lia.
  - intros j Hj. destruct (Hnth j Hj) as [Hin Heq].
    rewrite Z.add_0_l in Hin, Heq.
    assert (Hwin : 0 <= Z.of_nat j * chunkSize <= len items) by lia.
    assert (Hsize : 0 <= chunkSize) by lia.
    rewrite Heq. split; [| split].
    + rewrite (slice_window _ _ _ Hwin Hsize). do 2 f_equal. lia.
    + rewrite (slice_window_length _ _ _ Hwin Hsize). lia.
    + intros Hnext. destruct (Hnth (S j) Hnext) as [Hin' _].
      rewrite (slice_window_length _ _ _ Hwin Hsize). lia.
  - exact Hcat.
Qed.

Lemma chunker_partitions_witness :
  exists chunks : list (list Z),
    (forall fuel, (List.length [1; 2; 3; 4; 5] < fuel)%nat ->
       split_chunks fuel [1; 2; 3; 4; 5] 2 = Some chunks) /\
    (forall fuel chunks', split_chunks fuel [1; 2; 3; 4; 5] 2 = Some chunks' ->
       chunks' = chunks) /\
    len chunks = ceil_div (len [1; 2; 3; 4; 5]) 2 /\
    (forall j, (j < List.length chunks)%nat ->
       nth j chunks [] =
         firstn (Z.to_nat 2) (skipn (j * Z.to_nat 2) [1; 2; 3; 4; 5]) /\
       1 <= len (nth j chunks []) <= 2 /\
       ((S j < List.length chunks)%nat -> len (nth j chunks []) = 2)) /\
    List.concat chunks = [1; 2; 3; 4; 5].
Proof. apply (chunker_partitions [1; 2; 3; 4; 5] 2). lia. Defined.

Example split_chunks_five :
  split_chunks 6 [1; 2; 3; 4; 5] 2 = Some [[1; 2]; [3; 4]; [5]].
Proof. reflexivity. Qed.

(** [ceil_div] is the ceiling of the quotient. *)
Lemma ceil_div_spec (n s : Z) :
  1 <= s -> (ceil_div n s - 1) * s < n <= ceil_div n s * s.
Proof.
  intros Hs. unfold ceil_div.
  pose proof (Z.div_mod (n + s - 1) s ltac:(lia)) as Hdm.
  pose proof (Z.mod_pos_bound (n + s - 1) s ltac:(lia)) as Hb.
  nia.
Qed.

(** ** Retry policy *)



Example retryable_deadlock :
  isRetryableError deadlock_error = true.
Proof. reflexivity. Qed.

Example retryable_timeout :
  isRetryableError {| name := "Error"; message := Some "Query TIMEOUT after 5s" |}%string = true.
Proof. reflexivity. Qed.

Example terminal_constraint :
  isRetryableError {| name := "Error"; message := Some "Unique constraint failed" |}%string = false.
Proof. reflexivity. Qed.

Example terminal_no_message : isRetryableError {| name := "Error"; message := None |}%string = false.
Proof. reflexivity. Qed.

(** ** Chunk executor *)

Section ChunkExecutorFacts.
Context {T R : Type}.
Variable processor : Processor T R.
Variable chunk : list T.
Variables chunkIndex retries retryDelay : Z.

Lemma sleeps_backoff_trace (k : nat) : forall attempt,
  sleeps (backoff_trace chunkIndex retries retryDelay k attempt) =
  map (fun a => retryDelay * (attempt + Z.of_nat a)) (seq 1 k).
Proof.
  induction k as [| k IH]; intros attempt; [reflexivity |].
  cbn [backoff_trace sleeps flat_map app seq map].
  change (flat_map _ (backoff_trace chunkIndex retries retryDelay k (attempt + 1)))
    with (sleeps (backoff_trace chunkIndex retries retryDelay k (attempt + 1))).
  rewrite IH, <- (seq_shift k 1), map_map. f_equal.
  apply map_ext. intros a. f_equal. lia.
Qed.

(** [k] retryable failures, each with budget left, are each followed by one
    backoff; the loop then goes on with attempt [attempt + k]. *)
Lemma attempt_loop_retries (k : nat) : forall remaining attempt errors,
  attempt + Z.of_nat k <= retries ->
  (forall a, 0 <= a < Z.of_nat k ->
     exists e, processor chunk chunkIndex (attempt + a) = Rejected e /\
               isRetryableError e = true /\ attempt + a <> retries) ->
  attempt_loop processor chunk chunkIndex retries retryDelay
    (k + remaining) attempt errors =
  (fst (attempt_loop processor chunk chunkIndex retries retryDelay
          remaining (attempt + Z.of_nat k) errors),
   backoff_trace chunkIndex retries retryDelay k attempt
   ++ snd (attempt_loop processor chunk chunkIndex retries retryDelay
             remaining (attempt + Z.of_nat k) errors)).
Proof.
  induction k as [| k IH]; intros remaining attempt errors Hbudget Hfail.
  - simpl. rewrite Z.add_0_r.
    now destruct (attempt_loop processor chunk chunkIndex retries retryDelay
                    remaining attempt errors).
  - destruct (Hfail 0 ltac:(lia)) as (e & He & Hretry & Hne).
    rewrite Z.add_0_r in He, Hne.
    cbn [Nat.add attempt_loop backoff_trace]. rewrite He, Hretry.
    apply Z.eqb_neq in Hne. rewrite Hne. cbn [negb orb].
    rewrite (IH remaining (attempt + 1) errors).
    + replace (attempt + 1 + Z.of_nat k) with (attempt + Z.of_nat (S k)) by lia.
      reflexivity.
    + lia.
    + intros a Ha. destruct (Hfail (a + 1) ltac:(lia)) as (e' & He' & Hr' & Hne').
      exists e'. replace (attempt + 1 + a) with (attempt + (a + 1)) by lia. auto.
Qed.

Lemma push_errors_spec (lastError : JsError) (isRetryable : bool) (rest : list T) :
  forall i errors,
  push_errors chunk chunkIndex lastError isRetryable i rest errors =
  errors ++
  map (fun entry =>
         {| BatchError.index := chunkIndex * len chunk + fst entry;
            BatchError.item := snd entry;
            BatchError.error := message lastError;
            BatchError.retryable := isRetryable |})
      (entries_from i rest).
Proof.
  induction rest as [| item rest IH]; intros i errors; simpl.
  - now rewrite app_nil_r.
  - rewrite IH, <- app_assoc. reflexivity.
Qed.

Lemma length_entries_from {A : Type} (l : list A) : forall i,
  List.length (entries_from i l) = List.length l.
Proof. induction l as [| x l IH]; intros i; simpl; [reflexivity | now rewrite IH]. Qed.

Lemma map_snd_entries_from {A : Type} (l : list A) : forall i,
  map snd (entries_from i l) = l.
Proof. induction l as [| x l IH]; intros i; simpl; [reflexivity | now rewrite IH]. Qed.

(** Every [ChunkResult] accounts for each item of its chunk once. *)
Lemma attempt_loop_accounts (remaining : nat) : forall attempt errors,
  let result := fst (attempt_loop processor chunk chunkIndex retries retryDelay
                       remaining attempt errors) in
  ChunkResult.succeeded result + ChunkResult.failed result = len chunk /\
  ChunkResult.items result = chunk /\
  ChunkResult.chunkIndex result = chunkIndex.
Proof.
  induction remaining as [| remaining IH]; intros attempt errors; simpl.
  - repeat split; lia.
  - destruct (processor chunk chunkIndex attempt) as [results | lastError]; simpl.
    + repeat split; lia.
    + destruct (negb (isRetryableError lastError) || (attempt =? retries)); simpl.
      * repeat split; lia.
      * specialize (IH (attempt + 1) errors).
        destruct (attempt_loop processor chunk chunkIndex retries retryDelay
                    remaining (attempt + 1) errors).
        exact IH.
Qed.

(** X1. The report of a chunk whose attempt [k] fails for good (with a
    terminal error, or with the budget used up) after [k] retryable failures:
    nothing succeeded, the whole chunk failed, there is one error per item, in
    item order, each with the message and the classification of that last
    failure and with index [chunkIndex * chunk.length + position]; the
    execution slept [k] times. *)
Lemma chunk_failure_report (k : nat) (lastError : JsError) :
  Z.of_nat k <= retries ->
  (forall a, 0 <= a < Z.of_nat k ->
     exists e, processor chunk chunkIndex a = Rejected e /\
               isRetryableError e = true) ->
  processor chunk chunkIndex (Z.of_nat k) = Rejected lastError ->
  isRetryableError lastError = false \/ Z.of_nat k = retries ->
  processChunkWithRetry processor chunk chunkIndex retries retryDelay =
  ({| ChunkResult.chunkIndex := chunkIndex;
      ChunkResult.items := chunk;
      ChunkResult.succeeded := 0;
      ChunkResult.failed := len chunk;
      ChunkResult.errors :=
        map (fun entry =>
               {| BatchError.index := chunkIndex * len chunk + fst entry;
                  BatchError.item := snd entry;
                  BatchError.error := message lastError;
                  BatchError.retryable := isRetryableError lastError |})
            (entries chunk) |},
   backoff_trace chunkIndex retries retryDelay k 0).
Proof.
  intros Hbudget Hfail Hlast Hfinal. unfold processChunkWithRetry.
  replace (Z.to_nat (retries + 1)) with (k + S (Z.to_nat (retries - Z.of_nat k)))%nat
    by lia.
  rewrite attempt_loop_retries.
  - cbn [attempt_loop Z.add]. rewrite Hlast.
    assert (Hstop : negb (isRetryableError lastError) || (Z.of_nat k =? retries) = true).
    { destruct Hfinal as [-> | ->]; [reflexivity |].
      rewrite Z.eqb_refl. apply orb_true_r. }
    rewrite Hstop. cbn [fst snd]. rewrite app_nil_r, push_errors_spec.
    reflexivity.
  - lia.
  - intros a Ha. destruct (Hfail a Ha) as (e & He & Hretry).
    exists e. repeat split; [assumption | assumption | lia].
Qed.
End ChunkExecutorFacts.

(** C3. When the operation fails with a retryable error on each of the first
    [k] attempts ([k <= retries]) and then returns as many results as the chunk
    has items, the chunk's result has [succeeded] the chunk size, [failed] 0 and
    no error, and the execution sleeps exactly [k] times, for
    [retryDelay * 1], ..., [retryDelay * k]. *)
Theorem retry_then_success {T R : Type} (processor : Processor T R)
    (chunk : list T) (chunkIndex retries retryDelay : Z) (k : nat)
    (results : list R) :
  Z.of_nat k <= retries ->
  (forall a, 0 <= a < Z.of_nat k ->
     exists e, processor chunk chunkIndex a = Rejected e /\
               isRetryableError e = true) ->
  processor chunk chunkIndex (Z.of_nat k) = Resolved results ->
  len results = len chunk ->
  let run := processChunkWithRetry processor chunk chunkIndex retries retryDelay in
  ChunkResult.succeeded (fst run) = len chunk /\
  ChunkResult.failed (fst run) = 0 /\
  ChunkResult.errors (fst run) = [] /\
  sleeps (snd run) = map (fun a => retryDelay * Z.of_nat a) (seq 1 k) /\
  List.length (sleeps (snd run)) = k.
Proof.
  intros Hbudget Hfail Hok Hwhole run. subst run. unfold processChunkWithRetry.
  replace (Z.to_nat (retries + 1)) with (k + S (Z.to_nat (retries - Z.of_nat k)))%nat
    by lia.
  rewrite attempt_loop_retries.
  - cbn [attempt_loop Z.add]. rewrite Hok. cbn [fst snd ChunkResult.succeeded
      ChunkResult.failed ChunkResult.errors].
    rewrite app_nil_r, sleeps_backoff_trace, length_map, length_seq.
    repeat split; [lia | lia].
  - lia.
  - intros a Ha. destruct (Hfail a Ha) as (e & He & Hretry).
    exists e. repeat split; [assumption | assumption | lia].
Qed.

Lemma retry_then_success_witness :
  let run := processChunkWithRetry fails_twice [7; 8; 9] 0 2 1000 in
  ChunkResult.succeeded (fst run) = len [7; 8; 9] /\
  ChunkResult.failed (fst run) = 0 /\
  ChunkResult.errors (fst run) = [] /\
  sleeps (snd run) = map (fun a => 1000 * Z.of_nat a) (seq 1 2) /\
  List.length (sleeps (snd run)) = 2%nat.
Proof.
  apply (retry_then_success fails_twice [7; 8; 9] 0 2 1000 2 [7; 8; 9]).
  - simpl. lia.
  - intros a Ha. exists deadlock_error. split; [| reflexivity].
    unfold fails_twice. destruct (Z.ltb_spec a 2) as [_ | Hge]; [reflexivity |].
    simpl in Ha. lia.
  - reflexivity.
  - reflexivity.
Defined.

Example retry_twice_waits :
  sleeps (snd (processChunkWithRetry fails_twice [7; 8; 9] 0 2 1000)) = [1000; 2000].
Proof. reflexivity. Qed.

(** C4 (what the code does at a short last chunk).  Three items in chunks of
    two: the second chunk is [[30]], with chunk index 1.  When its operation
    fails, the error recorded for item 30 carries index [1 * 1 + 0 = 1], which
    is the position of item 20 in the input; item 30 is at position 2. *)
Theorem short_chunk_error_index :
  split_chunks 4 [10; 20; 30] 2 = Some [[10; 20]; [30]] /\
  ChunkResult.errors (fst (processChunkWithRetry always_fails [30] 1 2 1000)) =
    [ {| BatchError.index := 1;
         BatchError.item := 30;
         BatchError.error := Some "Unique constraint failed"%string;
         BatchError.retryable := false |} ] /\
  nth_error [10; 20; 30] 1 = Some 20 /\
  nth_error [10; 20; 30] 2 = Some 30.
Proof. repeat split. Qed.

Lemma chunk_failure_report_witness :
  processChunkWithRetry always_fails [30] 1 2 1000 =
  ({| ChunkResult.chunkIndex := 1;
      ChunkResult.items := [30];
      ChunkResult.succeeded := 0;
      ChunkResult.failed := len [30];
      ChunkResult.errors :=
        map (fun entry =>
               {| BatchError.index := 1 * len [30] + fst entry;
                  BatchError.item := snd entry;
                  BatchError.error := message constraint_error;
                  BatchError.retryable := isRetryableError constraint_error |})
            (entries [30]) |},
   backoff_trace 1 2 1000 0 0).
Proof.
  apply (chunk_failure_report always_fails [30] 1 2 1000 0 constraint_error).
  - simpl. lia.
  - intros a Ha. simpl in Ha. lia.
  - reflexivity.
  - left. reflexivity.
Defined.

(** ** Worker pool *)

Lemma sum_over_app {A : Type} (w : A -> Z) (l1 l2 : list A) :
  sum_over w (l1 ++ l2) = sum_over w l1 + sum_over w l2.
Proof. induction l1 as [| x l1 IH]; simpl; [reflexivity | rewrite IH; lia]. Qed.

Lemma sum_over_ext {A : Type} (w w' : A -> Z) (l : list A) :
  (forall x, w x = w' x) -> sum_over w l = sum_over w' l.
Proof. intros H. induction l as [| x l IH]; simpl; [reflexivity | now rewrite H, IH]. Qed.

Lemma sum_over_add {A : Type} (w w' : A -> Z) (l : list A) :
  sum_over (fun x => w x + w' x) l = sum_over w l + sum_over w' l.
Proof. induction l as [| x l IH]; simpl; [reflexivity | rewrite IH; lia]. Qed.

Lemma sum_over_chunk_lengths {A : Type} (chunks : list (list A)) : forall i,
  sum_over (fun entry => len (snd entry)) (entries_from i chunks) =
  len (List.concat chunks).
Proof.
  induction chunks as [| c chunks IH]; intros i; simpl; [reflexivity |].
  now rewrite IH, len_app.
Qed.

Lemma is_empty_true {A : Type} (l : list A) : is_empty l = true <-> l = [].
Proof. destruct l; simpl; split; congruence. Qed.

Section WorkerPoolFacts.
Context {T R : Type}.
Variable options : BatchOptions.t T.
Variable processor : Processor T R.
Variable totalChunks : Z.

Lemma chunk_result_accounts (entry : Z * list T) :
  ChunkResult.succeeded (chunk_result options processor entry) +
  ChunkResult.failed (chunk_result options processor entry) = len (snd entry).
Proof.
  unfold chunk_result, processChunkWithRetry.
  apply (attempt_loop_accounts processor (snd entry) (fst entry)).
Qed.

(** *** Each step of the loop, on an arbitrary invariant *)

Lemma on_chunk_result_frame (st st' : Pool T R) (r : ChunkResult.t T)
    (s : PromiseState) :
  on_chunk_result options totalChunks st r = (st', s) ->
  processingQueue st' = processingQueue st /\
  activePromises st' = activePromises st /\
  processedChunks st' = processedChunks st + 1 /\
  succeeded st' = succeeded st + ChunkResult.succeeded r /\
  failed st' = failed st + ChunkResult.failed r /\
  allResults st' = allResults st /\
  turn st' = turn st /\
  s <> Pending.
Proof.
  unfold on_chunk_result. intros H.
  destruct (call_optional (BatchOptions.onProgress options) _);
    [| destruct (call_optional (BatchOptions.onChunkComplete options) _)];
    injection H as <- <-; cbn; repeat split; discriminate.
Qed.

Lemma run_settles_preserves (I : Pool T R -> Prop) :
  (forall k st, I st -> I (fst (settle options totalChunks k st))) ->
  forall ks st winner, I st -> I (fst (run_settles options totalChunks ks st winner)).
Proof.
  intros Hsettle. induction ks as [| k ks IH]; intros st winner HI; [exact HI |].
  simpl. specialize (Hsettle k st HI).
  destruct (settle options totalChunks k st) as [st' s]. now apply IH.
Qed.

(** An invariant of the three steps of a turn (admission, settlement,
    clean-up) holds when the loop stops, however it stops. *)
Lemma schedule_loop_preserves (I : Pool T R -> Prop) :
  (forall st, I st -> I (fill options processor st)) ->
  (forall k st, I st -> I (fst (settle options totalChunks k st))) ->
  (forall st active, I st ->
     (exists probe, reap probe (activePromises st) = inr active) \/
     active = activePromises st ->
     I (next_turn st active)) ->
  forall schedule st, I st ->
    I (fst (schedule_loop options processor totalChunks schedule st)).
Proof.
  intros Hfill Hsettle Hnext.
  induction schedule as [| tick schedule IH]; intros st HI; simpl.
  - now destruct (is_empty (processingQueue st) && is_empty (activePromises st)).
  - destruct (is_empty (processingQueue st) && is_empty (activePromises st));
      [exact HI |].
    destruct (is_aborted options st); [exact HI |].
    pose proof (Hfill st HI) as HI1.
    destruct (is_empty (activePromises (fill options processor st))).
    { apply IH, Hnext; auto. }
    unfold await_race.
    pose proof (run_settles_preserves I Hsettle (settles tick) _
                  (first_settled (activePromises (fill options processor st))) HI1)
      as HI2.
    destruct (run_settles options totalChunks (settles tick) _ _) as [st2 winner].
    simpl in HI2.
    destruct winner as [[| | e] |]; try exact HI2.
    + destruct (reap (probe tick) (activePromises st2)) as [e | active] eqn:Hreap;
        [exact HI2 |].
      apply IH, Hnext; eauto.
    + destruct (reap (probe tick) (activePromises st2)) as [e | active] eqn:Hreap;
        [exact HI2 |].
      apply IH, Hnext; eauto.
Qed.

(** The loop returns only with an empty queue and no active promise. *)
Lemma schedule_loop_returned (schedule : list Tick) : forall st st',
  schedule_loop options processor totalChunks schedule st = (st', Returned tt) ->
  processingQueue st' = [] /\ activePromises st' = [].
Proof.
  assert (Hstop : forall st : Pool T R,
            is_empty (processingQueue st) && is_empty (activePromises st) = true ->
            processingQueue st = [] /\ activePromises st = []).
  { intros st H. apply andb_true_iff in H. now rewrite !is_empty_true in H. }
  induction schedule as [| tick schedule IH]; intros st st' Hrun; simpl in Hrun.
  - destruct (is_empty (processingQueue st) && is_empty (activePromises st)) eqn:Hdone;
      [| discriminate].
    injection Hrun as <-. now apply Hstop.
  - destruct (is_empty (processingQueue st) && is_empty (activePromises st)) eqn:Hdone.
    { injection Hrun as <-. now apply Hstop. }
    destruct (is_aborted options st); [discriminate |].
    destruct (is_empty (activePromises (fill options processor st))).
    { now apply IH in Hrun. }
    destruct (await_race options totalChunks tick (fill options processor st))
      as [st2 [[| | e] |]]; try discriminate.
    + destruct (reap (probe tick) (activePromises st2)); [discriminate |].
      now apply IH in Hrun.
    + destruct (reap (probe tick) (activePromises st2)); [discriminate |].
      now apply IH in Hrun.
Qed.

(** *** Accounting: every chunk is counted once *)

Variable w : ChunkResult.t T -> Z.

Lemma admit_weight (queue : list (Z * list T)) : forall active queue' active',
  admit_chunks options processor queue active = (queue', active') ->
  sum_over (fun entry => w (chunk_result options processor entry)) queue' +
  running_weight w active' =
  sum_over (fun entry => w (chunk_result options processor entry)) queue +
  running_weight w active.
Proof.
  induction queue as [| entry queue IH]; intros active queue' active' Hadmit;
    simpl in Hadmit.
  - now injection Hadmit as <- <-.
  - destruct (len active <? concurrency_of options).
    + rewrite (IH _ _ _ Hadmit). unfold running_weight.
      rewrite sum_over_app. simpl. lia.
    + now injection Hadmit as <- <-.
Qed.

Lemma mark_settled_weight (k : Z) (s : PromiseState) (active : list (ActivePromise T))
    (p : ActivePromise T) :
  find (is_running k) active = Some p -> s <> Pending ->
  running_weight w (mark_settled k s active) =
  running_weight w active - w (result p).
Proof.
  intros Hfind Hs. induction active as [| q active IH]; [discriminate |].
  simpl in Hfind |- *. destruct (is_running k q) eqn:Hq.
  - injection Hfind as ->. unfold running_weight. simpl.
    unfold is_running in Hq. apply andb_true_iff in Hq. destruct Hq as [_ Hpend].
    rewrite Hpend. unfold is_pending at 1. simpl.
    destruct s; [congruence | lia | lia].
  - unfold running_weight in *. simpl. rewrite (IH Hfind). lia.
Qed.

Lemma reap_weight (probe : Z -> bool) (active : list (ActivePromise T)) :
  forall active', reap probe active = inr active' ->
  running_weight w active' = running_weight w active.
Proof.
  induction active as [| p active IH]; intros active' Hreap; simpl in Hreap.
  - now injection Hreap as <-.
  - destruct (reap probe active) as [e | rest]; [discriminate |].
    specialize (IH rest eq_refl). unfold running_weight, is_pending in *.
    destruct (state p) eqn:Hp;
      [| destruct (probe _) | destruct (probe _); [discriminate |]];
      injection Hreap as <-; simpl; rewrite ?Hp; lia.
Qed.

Lemma settle_weight (acc : Pool T R -> Z) (k : Z) (st : Pool T R) :
  (forall st0 st1 r s, on_chunk_result options totalChunks st0 r = (st1, s) ->
                       acc st1 = acc st0 + w r) ->
  (forall st0 active, acc (with_active st0 active) = acc st0) ->
  let st' := fst (settle options totalChunks k st) in
  acc st' + running_weight w (activePromises st') =
    acc st + running_weight w (activePromises st) /\
  processingQueue st' = processingQueue st.
Proof.
  intros Hacc Hframe. unfold settle.
  destruct (find (is_running k) (activePromises st)) as [p |] eqn:Hfind;
    [| simpl; split; reflexivity].
  destruct (on_chunk_result options totalChunks st (result p)) as [st1 s] eqn:Hfold.
  pose proof (Hacc _ _ _ _ Hfold) as Hacc1.
  apply on_chunk_result_frame in Hfold.
  destruct Hfold as (Hq & Ha & _ & _ & _ & _ & _ & Hs).
  cbn [fst]. rewrite Hframe. cbn [activePromises processingQueue with_active].
  rewrite Ha, (mark_settled_weight k s _ p Hfind Hs), Hacc1, Hq. split; [lia | reflexivity].
Qed.

Lemma schedule_loop_accounted (acc : Pool T R -> Z) (total : Z) :
  (forall st0 st1 r s, on_chunk_result options totalChunks st0 r = (st1, s) ->
                       acc st1 = acc st0 + w r) ->
  (forall st0 active, acc (with_active st0 active) = acc st0) ->
  (forall st0 active, acc (next_turn st0 active) = acc st0) ->
  (forall st0, acc (fill options processor st0) = acc st0) ->
  forall schedule st, accounted options processor w acc total st ->
    accounted options processor w acc total
      (fst (schedule_loop options processor totalChunks schedule st)).
Proof.
  intros Hacc Hactive Hturn Hfill.
  apply schedule_loop_preserves; unfold accounted.
  - intros st HI. rewrite Hfill. unfold fill.
    destruct (admit_chunks options processor (processingQueue st) (activePromises st))
      as [queue active] eqn:Hadmit.
    cbn [processingQueue activePromises]. apply admit_weight in Hadmit. lia.
  - intros k st HI.
    destruct (settle_weight acc k st Hacc Hactive) as [Hsum Hq].
    rewrite Hq. lia.
  - intros st active HI [[probe Hreap] | ->]; rewrite Hturn;
      cbn [processingQueue activePromises next_turn]; [| exact HI].
    rewrite (reap_weight _ _ _ Hreap). exact HI.
Qed.
End WorkerPoolFacts.

Lemma processBatch_returned {T R : Type} (options : BatchOptions.t T)
    (processor : Processor T R) (fuel : nat) (schedule : list Tick)
    (r : BatchResult.t T R) :
  outcome (processBatch options processor fuel schedule) = Returned r ->
  exists chunks st,
    split_chunks fuel (items_of options) (chunkSize_of options) = Some chunks /\
    schedule_loop options processor (len chunks) schedule (initial_pool chunks) =
      (st, Returned tt) /\
    r = batch_result options st.
Proof.
  unfold processBatch. intros Hrun.
  destruct (split_chunks fuel (items_of options) (chunkSize_of options))
    as [chunks |]; [| discriminate].
  destruct (schedule_loop options processor (len chunks) schedule (initial_pool chunks))
    as [st exit] eqn:Hloop.
  destruct exit as [[] | e | |]; try discriminate.
  injection Hrun as <-. now exists chunks, st.
Qed.




(** *** The processor's return values *)




(** *** Progress reports *)

(** C6 (what the code does at a short last chunk).  Three items in chunks of
    two, no failure: the second report has [processed = 2 * 2 = 4], while
    [succeeded + failed = 3] and [total = 3]. *)
Theorem progress_overcounts_short_chunk :
  reported (processBatch (job [1; 2; 3] 2 (Some silent)) echo 4 [in_order 2]) =
    [ {| BatchProgress.total := 3;
         BatchProgress.processed := 2;
         BatchProgress.succeeded := 2;
         BatchProgress.failed := 0;
         BatchProgress.currentChunk := 1;
         BatchProgress.totalChunks := 2 |};
      {| BatchProgress.total := 3;
         BatchProgress.processed := 4;
         BatchProgress.succeeded := 3;
         BatchProgress.failed := 0;
         BatchProgress.currentChunk := 2;
         BatchProgress.totalChunks := 2 |} ].
Proof. reflexivity. Qed.

(** In every report [processed] is the number of settled chunks times the
    configured chunk size. *)
Lemma on_chunk_result_processed {T R : Type} (options : BatchOptions.t T)
    (totalChunks : Z) (st st' : Pool T R) (r : ChunkResult.t T) (s : PromiseState)
    (cb : Callback BatchProgress.t) :
  BatchOptions.onProgress options = Some cb ->
  on_chunk_result options totalChunks st r = (st', s) ->
  exists progress,
    progressReports st' = progressReports st ++ [progress] /\
    BatchProgress.processed progress = (processedChunks st + 1) * chunkSize_of options /\
    BatchProgress.succeeded progress = succeeded st + ChunkResult.succeeded r /\
    BatchProgress.failed progress = failed st + ChunkResult.failed r.
Proof.
  unfold on_chunk_result. intros -> H. cbn [call_optional log_optional] in H.
  destruct (cb _);
    [| destruct (call_optional (BatchOptions.onChunkComplete options) r)];
    injection H as <- <-; eexists; cbn; repeat split.
Qed.

(** *** Chunk size that is not positive *)

Lemma nonpositive_chunk_size_diverges {T R : Type} (options : BatchOptions.t T)
    (processor : Processor T R) (fuel : nat) (schedule : list Tick) :
  chunkSize_of options <= 0 ->
  BatchOptions.items options <> [] ->
  outcome (processBatch options processor fuel schedule) = OutOfFuel.
Proof.
  intros Hsize Hitems. unfold processBatch, split_chunks.
  rewrite chunk_loop_nonpositive; [reflexivity | assumption | lia | assumption].
Qed.

(** C7 (as the code has it).  [processBatch] does not check the chunk size.
    With [chunkSize <= 0] no error is thrown, at any fuel and schedule; on an
    empty item list the chunking loop builds no chunk and the empty, successful
    [BatchResult] is returned. *)
Theorem nonpositive_chunk_size_not_rejected {T R : Type} (options : BatchOptions.t T)
    (processor : Processor T R) (fuel : nat) (schedule : list Tick) :
  chunkSize_of options <= 0 ->
  (forall e, outcome (processBatch options processor fuel schedule) <> Thrown e) /\
  (BatchOptions.items options = [] ->
   outcome (processBatch options processor (S fuel) schedule) =
     Returned {| BatchResult.success := true;
                 BatchResult.total := 0;
                 BatchResult.succeeded := 0;
                 BatchResult.failed := 0;
                 BatchResult.errors := [];
                 BatchResult.results := [] |}).
Proof.
  intros Hsize. split.
  - intros e. destruct (BatchOptions.items options) as [| x items] eqn:Hitems.
    + unfold processBatch, items_of. rewrite Hitems.
      destruct fuel; [discriminate |].
      rewrite split_chunks_empty. now destruct schedule.
    + rewrite nonpositive_chunk_size_diverges; [discriminate | assumption | congruence].
  - intros Hitems. unfold processBatch, items_of. rewrite Hitems, split_chunks_empty.
    destruct schedule; cbn; unfold batch_result, items_of; now rewrite Hitems.
Qed.

Lemma nonpositive_chunk_size_not_rejected_witness :
  (forall e, outcome (processBatch (job [] 0 None) echo 1 []) <> Thrown e) /\
  (BatchOptions.items (job [] 0 None) = [] ->
   outcome (processBatch (job [] 0 None) echo 2 []) =
     Returned {| BatchResult.success := true;
                 BatchResult.total := 0;
                 BatchResult.succeeded := 0;
                 BatchResult.failed := 0;
                 BatchResult.errors := [];
                 BatchResult.results := [] |}).
Proof.
  apply (nonpositive_chunk_size_not_rejected (job [] 0 None) echo 1 []).
  unfold chunkSize_of. simpl. lia.
Defined.

(** A call with chunk size 0 that returns instead of throwing, and a call
    with chunk size -1 whose chunking loop is still running after 1000 turns. *)
Lemma chunk_size_zero_accepted :
  chunkSize_of (job [] 0 None) <= 0 /\
  outcome (processBatch (job [] 0 None) echo 1 []) = Returned empty_result /\
  chunkSize_of (job [1; 2] (-1) None) <= 0 /\
  outcome (processBatch (job [1; 2] (-1) None) echo 1000 [in_order 2]) = OutOfFuel.
Proof. repeat split; unfold chunkSize_of; simpl; lia. Qed.

(** *** A progress callback that throws *)

Section ThrowingProgress.
Context {T R : Type}.
Variable options : BatchOptions.t T.
Variable processor : Processor T R.
Variable totalChunks : Z.
Variable cb : Callback BatchProgress.t.
Hypothesis progress_sink : BatchOptions.onProgress options = Some cb.
Hypothesis always_throws : forall progress, cb progress <> None.

Lemma on_chunk_result_rejects (st st' : Pool T R) (r : ChunkResult.t T)
    (s : PromiseState) :
  on_chunk_result options totalChunks st r = (st', s) ->
  exists progress e, cb progress = Some e /\ s = RejectedWith e.
Proof.
  unfold on_chunk_result. rewrite progress_sink. cbn [call_optional].
  intros H. match type of H with context [cb ?p] => set (progress := p) in * end.
  destruct (cb progress) as [e |] eqn:Hcb.
  - injection H as _ <-. now exists progress, e.
  - now apply always_throws in Hcb.
Qed.

Lemma run_settles_keeps_winner (ks : list Z) : forall (st : Pool T R) s,
  snd (run_settles options totalChunks ks st (Some s)) = Some s.
Proof.
  induction ks as [| k ks IH]; intros st s; simpl; [reflexivity |].
  destruct (settle options totalChunks k st) as [st' s']. apply IH.
Qed.

(** While nothing has settled, the race is won by the first chunk to
    complete, and its promise is rejected by the callback. *)
Lemma run_settles_first_rejects (ks : list Z) : forall st : Pool T R,
  snd (run_settles options totalChunks ks st None) = None \/
  exists progress e,
    cb progress = Some e /\
    snd (run_settles options totalChunks ks st None) = Some (RejectedWith e).
Proof.
  induction ks as [| k ks IH]; intros st; simpl; [now left |].
  destruct (settle options totalChunks k st) as [st' s'] eqn:Hsettle.
  unfold settle in Hsettle.
  destruct (find (is_running k) (activePromises st)) as [p |].
  - destruct (on_chunk_result options totalChunks st (result p)) as [st1 s] eqn:Hfold.
    destruct (on_chunk_result_rejects _ _ _ _ Hfold) as (progress & e & Hcb & ->).
    injection Hsettle as _ <-.
    right. exists progress, e. split; [exact Hcb |]. apply run_settles_keeps_winner.
  - injection Hsettle as <- <-. apply IH.
Qed.

Lemma first_settled_none (active : list (ActivePromise T)) :
  Forall (fun p => state p = Pending) active -> first_settled active = None.
Proof.
  unfold first_settled. induction 1 as [| p active Hp _ IH]; [reflexivity |].
  simpl. unfold is_pending at 1. now rewrite Hp.
Qed.

Lemma admit_all_running (queue : list (Z * list T)) : forall active queue' active',
  admit_chunks options processor queue active = (queue', active') ->
  Forall (fun p => state p = Pending) active ->
  Forall (fun p => state p = Pending) active' /\
  (queue <> [] \/ active <> [] -> queue' <> [] \/ active' <> []).
Proof.
  induction queue as [| entry queue IH]; intros active queue' active' Hadmit Hall;
    simpl in Hadmit.
  - injection Hadmit as <- <-. auto.
  - destruct (len active <? concurrency_of options).
    + destruct (IH _ _ _ Hadmit) as [Hall' Hleft].
      { apply Forall_app. split; [exact Hall |]. now constructor. }
      split; [exact Hall' |]. intros _. apply Hleft. right.
      now destruct active.
    + injection Hadmit as <- <-. auto.
Qed.

Lemma fill_all_running (st : Pool T R) :
  all_running st -> all_running (fill options processor st).
Proof.
  unfold all_running, fill. intros [Hall Hleft].
  destruct (admit_chunks options processor (processingQueue st) (activePromises st))
    as [queue active] eqn:Hadmit.
  cbn [processingQueue activePromises].
  destruct (admit_all_running _ _ _ _ Hadmit Hall) as [Hall' Hleft']. auto.
Qed.

(** With such a callback the loop never returns: it ends by throwing, when
    the first chunk completes or on an abort, or it does not end. *)
Lemma schedule_loop_throws (schedule : list Tick) : forall st : Pool T R,
  all_running st ->
  match snd (schedule_loop options processor totalChunks schedule st) with
  | Returned _ => False
  | Thrown e => e = aborted_error \/ exists progress, cb progress = Some e
  | Stuck | OutOfFuel => True
  end.
Proof.
  induction schedule as [| tick schedule IH]; intros st Hrun; simpl;
    assert (Hbusy : is_empty (processingQueue st) && is_empty (activePromises st) = false)
      by (destruct Hrun as [_ [Hq | Ha]];
          [destruct (processingQueue st) | destruct (activePromises st)];
          simpl; rewrite ?andb_false_r; congruence);
    rewrite Hbusy; [exact I |].
  destruct (is_aborted options st); [now left |].
  pose proof (fill_all_running st Hrun) as Hrun1.
  destruct (is_empty (activePromises (fill options processor st))).
  { apply IH. exact Hrun1. }
  unfold await_race. rewrite (first_settled_none _ (proj1 Hrun1)).
  destruct (run_settles_first_rejects (settles tick) (fill options processor st))
    as [Hnone | (progress & e & Hcb & Hwin)];
    destruct (run_settles options totalChunks (settles tick) _ None) as [st2 winner];
    simpl in *; subst winner; [exact I |].
  right. now exists progress.
Qed.
End ThrowingProgress.




(** *** Further facts about the pool *)

Section PoolShape.
Context {T R : Type}.
Variable options : BatchOptions.t T.
Variable processor : Processor T R.
Variable totalChunks : Z.

Lemma length_mark_settled (k : Z) (s : PromiseState) (active : list (ActivePromise T)) :
  List.length (mark_settled k s active) = List.length active.
Proof.
  induction active as [| p active IH]; simpl; [reflexivity |].
  destruct (is_running k p); simpl; [reflexivity | now rewrite IH].
Qed.

(** Settlements neither admit nor remove a promise. *)
Lemma settle_shape (k : Z) (st : Pool T R) :
  processingQueue (fst (settle options totalChunks k st)) = processingQueue st /\
  List.length (activePromises (fst (settle options totalChunks k st))) =
    List.length (activePromises st).
Proof.
  unfold settle. destruct (find (is_running k) (activePromises st)) as [p |]; [| easy].
  destruct (on_chunk_result options totalChunks st (result p)) as [st1 s] eqn:Hfold.
  apply on_chunk_result_frame in Hfold. destruct Hfold as (Hq & Ha & _).
  cbn. now rewrite length_mark_settled, Ha, Hq.
Qed.

Lemma run_settles_shape (ks : list Z) : forall (st : Pool T R) winner,
  processingQueue (fst (run_settles options totalChunks ks st winner)) =
    processingQueue st /\
  List.length (activePromises (fst (run_settles options totalChunks ks st winner))) =
    List.length (activePromises st).
Proof.
  induction ks as [| k ks IH]; intros st winner; simpl; [easy |].
  pose proof (settle_shape k st) as [Hq Ha].
  destruct (settle options totalChunks k st) as [st' s]. simpl in Hq, Ha.
  destruct (IH st' (match winner with Some _ => winner | None => s end)) as [Hq' Ha'].
  split; congruence.
Qed.

Lemma admit_bounded (queue : list (Z * list T)) : forall active queue' active',
  admit_chunks options processor queue active = (queue', active') ->
  len active <= Z.max 0 (concurrency_of options) ->
  len active' <= Z.max 0 (concurrency_of options).
Proof.
  induction queue as [| entry queue IH]; intros active queue' active' Hadmit Hle;
    simpl in Hadmit.
  - now injection Hadmit as <- <-.
  - destruct (Z.ltb_spec (len active) (concurrency_of options)) as [Hlt | Hge].
    + apply (IH _ _ _ Hadmit). rewrite len_app. unfold len at 2. simpl. lia.
    + now injection Hadmit as <- <-.
Qed.

Lemma admit_busy (queue : list (Z * list T)) : forall active queue' active',
  admit_chunks options processor queue active = (queue', active') ->
  queue <> [] \/ active <> [] -> queue' <> [] \/ active' <> [].
Proof.
  induction queue as [| entry queue IH]; intros active queue' active' Hadmit Hbusy;
    simpl in Hadmit.
  - now injection Hadmit as <- <-.
  - destruct (len active <? concurrency_of options).
    + apply (IH _ _ _ Hadmit). right. now destruct active.
    + now injection Hadmit as <- <-.
Qed.

Lemma length_reap (probe : Z -> bool) (active : list (ActivePromise T)) :
  forall active', reap probe active = inr active' ->
  (List.length active' <= List.length active)%nat.
Proof.
  induction active as [| p active IH]; intros active' Hreap; simpl in Hreap.
  - now injection Hreap as <-.
  - destruct (reap probe active) as [e | rest]; [discriminate |].
    specialize (IH rest eq_refl).
    destruct (state p); [| destruct (probe _) | destruct (probe _); [discriminate |]];
      injection Hreap as <-; simpl; lia.
Qed.

Lemma reap_unobserved (probe : Z -> bool) (active : list (ActivePromise T)) :
  (forall k, probe k = false) -> reap probe active = inr active.
Proof.
  intros Hprobe. induction active as [| p active IH]; simpl; [reflexivity |].
  rewrite IH, Hprobe. now destruct (state p).
Qed.

(** When no clean-up ever observes a settlement, no promise leaves
    [activePromises], and the loop does not return. *)
Lemma schedule_loop_unobserved (schedule : list Tick) : forall st : Pool T R,
  Forall (fun tick => forall k, probe tick k = false) schedule ->
  processingQueue st <> [] \/ activePromises st <> [] ->
  snd (schedule_loop options processor totalChunks schedule st) <> Returned tt.
Proof.
  induction schedule as [| tick schedule IH]; intros st Hprobes Hbusy; simpl;
    assert (Hloop : is_empty (processingQueue st) && is_empty (activePromises st) = false)
      by (destruct Hbusy as [Hq | Ha];
          [destruct (processingQueue st) | destruct (activePromises st)];
          simpl; rewrite ?andb_false_r; congruence);
    rewrite Hloop; [discriminate |].
  inversion Hprobes as [| ? ? Hprobe Hrest]; subst.
  destruct (is_aborted options st); [discriminate |].
  assert (Hbusy1 : processingQueue (fill options processor st) <> [] \/
                   activePromises (fill options processor st) <> []).
  { unfold fill.
    destruct (admit_chunks options processor (processingQueue st) (activePromises st))
      as [queue active] eqn:Hadmit.
    cbn. exact (admit_busy _ _ _ _ Hadmit Hbusy). }
  destruct (is_empty (activePromises (fill options processor st))) eqn:Hidle.
  { apply IH; assumption. }
  unfold await_race.
  destruct (run_settles_shape (settles tick) (fill options processor st)
              (first_settled (activePromises (fill options processor st))))
    as [_ Hlen].
  destruct (run_settles options totalChunks (settles tick) _ _) as [st2 winner].
  simpl in Hlen.
  destruct winner as [[| | e] |]; try discriminate;
    rewrite (reap_unobserved _ _ Hprobe); apply IH; try assumption;
    right; cbn; intros Hnil; rewrite Hnil in Hlen;
    destruct (activePromises (fill options processor st)); discriminate.
Qed.
End PoolShape.

(** X3. At the end of every turn of the scheduling loop at most
    [max(0, concurrency)] promises are active. *)
Theorem active_promises_bounded {T R : Type} (options : BatchOptions.t T)
    (processor : Processor T R) (chunks : list (list T)) (schedule : list Tick) :
  len (activePromises
         (fst (schedule_loop options processor (len chunks) schedule
                 (initial_pool chunks))))
  <= Z.max 0 (concurrency_of options).
Proof.
  apply (schedule_loop_preserves options processor (len chunks)
           (fun st => len (activePromises st) <= Z.max 0 (concurrency_of options))).
  - intros st Hle. unfold fill.
    destruct (admit_chunks options processor (processingQueue st) (activePromises st))
      as [queue active] eqn:Hadmit.
    cbn. exact (admit_bounded _ _ _ _ _ _ Hadmit Hle).
  - intros k st Hle. destruct (settle_shape options (len chunks) k st) as [_ Hlen].
    unfold len in *. rewrite Hlen. exact Hle.
  - intros st active Hle [[probe Hreap] | ->]; cbn; [| exact Hle].
    apply length_reap in Hreap. unfold len in *. lia.
  - cbn. lia.
Qed.

(** X4. If the clean-up never observes a settlement, [processBatch] does not
    return for a job with at least one item. *)
Theorem unobserved_settlements_never_return {T R : Type} (options : BatchOptions.t T)
    (processor : Processor T R) (fuel : nat) (schedule : list Tick) :
  Forall (fun tick => forall k, probe tick k = false) schedule ->
  BatchOptions.items options <> [] ->
  is_returned (outcome (processBatch options processor fuel schedule)) = false.
Proof.
  intros Hprobes Hitems. unfold processBatch.
  destruct (split_chunks fuel (items_of options) (chunkSize_of options))
    as [chunks |] eqn:Hsplit; [| reflexivity].
  pose proof (split_chunks_nonempty _ _ _ _ Hsplit Hitems) as Hchunks.
  assert (Hbusy : processingQueue (@initial_pool T R chunks) <> [] \/
                  activePromises (@initial_pool T R chunks) <> []).
  { left. cbn. now destruct chunks. }
  pose proof (schedule_loop_unobserved options processor (len chunks) schedule _
                Hprobes Hbusy) as Hloop.
  destruct (schedule_loop options processor (len chunks) schedule (initial_pool chunks))
    as [st exit].
  cbn [outcome snd] in *. destruct exit as [[] | | |]; [congruence | | |]; reflexivity.
Qed.

Lemma unobserved_settlements_never_return_witness :
  is_returned (outcome (processBatch (job [1; 2; 3] 2 None) echo 4
                          [unobserved 2; unobserved 2; unobserved 2])) = false.
Proof.
  apply (unobserved_settlements_never_return (job [1; 2; 3] 2 None) echo 4
           [unobserved 2; unobserved 2; unobserved 2]).
  - repeat constructor.
  - discriminate.
Defined.



(** *** Completion under a schedule that settles and observes everything *)

Lemma firstn_entries_from {A : Type} (m : nat) : forall (l : list A) i,
  firstn m (entries_from i l) = entries_from i (firstn m l).
Proof.
  induction m as [| m IH]; intros [| x l] i; simpl; try reflexivity.
  now rewrite IH.
Qed.

Lemma skipn_entries_from {A : Type} (m : nat) : forall (l : list A) i,
  skipn m (entries_from i l) = entries_from (i + Z.of_nat m) (skipn m l).
Proof.
  induction m as [| m IH]; intros l i.
  - simpl. now rewrite Z.add_0_r.
  - destruct l as [| x l]; [reflexivity |].
    cbn [skipn entries_from]. rewrite IH. f_equal. lia.
Qed.

Lemma entries_from_lower {A : Type} (l : list A) : forall i entry,
  In entry (entries_from i l) -> i <= fst entry.
Proof.
  induction l as [| x l IH]; intros i entry Hin; simpl in Hin; [contradiction |].
  destruct Hin as [<- | Hin]; [simpl; lia |].
  apply IH in Hin. lia.
Qed.

Lemma find_none_all {A : Type} (f : A -> bool) (l : list A) :
  (forall x, In x l -> f x = false) -> find f l = None.
Proof.
  induction l as [| x l IH]; intros Hall; simpl; [reflexivity |].
  rewrite (Hall x (or_introl eq_refl)). apply IH. intros y Hy. apply Hall. now right.
Qed.

Section Completion.
Context {T R : Type}.
Variable options : BatchOptions.t T.
Variable processor : Processor T R.
Variable totalChunks : Z.
Hypothesis concurrency_pos : 1 <= concurrency_of options.
Hypothesis progress_returns :
  forall progress, call_optional (BatchOptions.onProgress options) progress = None.
Hypothesis complete_returns :
  forall r, call_optional (BatchOptions.onChunkComplete options) r = None.
Hypothesis no_signal : BatchOptions.abortSignal options = None.

Lemma chunk_result_index (entry : Z * list T) :
  ChunkResult.chunkIndex (chunk_result options processor entry) = fst entry.
Proof.
  unfold chunk_result, processChunkWithRetry.
  apply (attempt_loop_accounts processor (snd entry) (fst entry)).
Qed.

(** Admission takes a prefix of the queue, at least one chunk when there is
    room. *)
Lemma admit_chunks_prefix (queue : list (Z * list T)) : forall active,
  exists m,
    admit_chunks options processor queue active =
      (skipn m queue, active ++ map (admitted options processor) (firstn m queue)) /\
    (m <= List.length queue)%nat /\
    (queue <> [] -> len active < concurrency_of options -> (1 <= m)%nat).
Proof.
  induction queue as [| entry queue IH]; intros active.
  - exists 0%nat. simpl. rewrite app_nil_r. repeat split; [lia | congruence].
  - simpl. destruct (Z.ltb_spec (len active) (concurrency_of options)) as [Hlt | Hge].
    + destruct (IH (active ++ [admitted options processor entry])) as (m & Hm & Hle & _).
      exists (S m). rewrite Hm. simpl. rewrite <- app_assoc. repeat split; lia.
    + exists 0%nat. simpl. rewrite app_nil_r. repeat split; lia.
Qed.

Lemma on_chunk_result_fulfils (st : Pool T R) (r : ChunkResult.t T) :
  snd (on_chunk_result options totalChunks st r) = Fulfilled.
Proof. unfold on_chunk_result. now rewrite progress_returns, complete_returns. Qed.

Lemma find_running_settled (k : Z) (done : list (ActivePromise T))
    (rest : list (ActivePromise T)) :
  Forall (fun p => state p = Fulfilled) done ->
  find (is_running k) (done ++ rest) = find (is_running k) rest.
Proof.
  induction 1 as [| p done Hp _ IH]; [reflexivity |].
  simpl. unfold is_running at 1, is_pending. rewrite Hp, andb_false_r. exact IH.
Qed.

Lemma mark_settled_skips (k : Z) (s : PromiseState) (done : list (ActivePromise T))
    (rest : list (ActivePromise T)) :
  Forall (fun p => state p = Fulfilled) done ->
  mark_settled k s (done ++ rest) = done ++ mark_settled k s rest.
Proof.
  induction 1 as [| p done Hp _ IH]; [reflexivity |].
  simpl. unfold is_running at 1, is_pending. rewrite Hp, andb_false_r.
  now rewrite IH.
Qed.

Lemma find_running_later (k j : Z) (chunks : list (list T)) :
  k < j ->
  find (is_running k) (map (admitted options processor) (entries_from j chunks)) = None.
Proof.
  intros Hlt. apply find_none_all. intros p Hin.
  apply in_map_iff in Hin. destruct Hin as (entry & <- & Hin).
  apply entries_from_lower in Hin.
  unfold is_running, admitted. cbn [result]. rewrite chunk_result_index.
  apply andb_false_iff. left. apply Z.eqb_neq. lia.
Qed.

Lemma settle_miss (k : Z) (st : Pool T R) :
  find (is_running k) (activePromises st) = None ->
  settle options totalChunks k st = (st, None).
Proof. unfold settle. now intros ->. Qed.

(** The first running chunk completes and its promise is fulfilled. *)
Lemma settle_first_running (k : Z) (c : list T) (st : Pool T R)
    (done more : list (ActivePromise T)) :
  activePromises st = done ++ admitted options processor (k, c) :: more ->
  Forall (fun p => state p = Fulfilled) done ->
  exists st',
    settle options totalChunks k st = (st', Some Fulfilled) /\
    processingQueue st' = processingQueue st /\
    activePromises st' =
      (done ++ [ {| result := chunk_result options processor (k, c);
                    state := Fulfilled |} ]) ++ more.
Proof.
  intros Hactive Hdone. unfold settle.
  assert (Hrunning : is_running k (admitted options processor (k, c)) = true).
  { unfold is_running, admitted, is_pending. cbn [result state].
    rewrite chunk_result_index. cbn [fst]. now rewrite Z.eqb_refl. }
  rewrite Hactive, find_running_settled by assumption.
  cbn [find]. rewrite Hrunning. cbn [admitted result].
  pose proof (on_chunk_result_fulfils st (chunk_result options processor (k, c))) as Hs.
  destruct (on_chunk_result options totalChunks st
              (chunk_result options processor (k, c))) as [st1 s] eqn:Hfold.
  cbn [snd] in Hs. subst s.
  apply on_chunk_result_frame in Hfold. destruct Hfold as (Hq & Ha & _).
  eexists. split; [reflexivity |]. cbn [processingQueue activePromises with_active].
  split; [exact Hq |].
  rewrite Ha, Hactive, mark_settled_skips by assumption.
  cbn [mark_settled]. rewrite Hrunning. cbn [admitted result].
  now rewrite <- app_assoc.
Qed.

(** The chunks [a], [a + 1], ... complete in this order: every admitted chunk
    with an index in that range settles, and is fulfilled. *)
Lemma run_settles_in_order (count : nat) :
  forall (a : nat) (st : Pool T R) done j chunks winner,
  activePromises st = done ++ map (admitted options processor) (entries_from j chunks) ->
  Forall (fun p => state p = Fulfilled) done ->
  Z.of_nat a <= j ->
  j + len chunks <= Z.of_nat (a + count) ->
  (winner = None \/ winner = Some Fulfilled) ->
  (winner = None -> chunks <> []) ->
  exists st',
    run_settles options totalChunks (map Z.of_nat (seq a count)) st winner =
      (st', Some Fulfilled) /\
    Forall (fun p => state p = Fulfilled) (activePromises st') /\
    processingQueue st' = processingQueue st.
Proof.
  induction count as [| count IH];
    intros a st done j chunks winner Hactive Hdone Hlow Hhigh Hwin Hsome.
  - assert (chunks = []) as ->.
    { destruct chunks; [reflexivity |]. rewrite len_cons in Hhigh.
      pose proof (len_nonneg chunks). lia. }
    destruct Hwin as [-> | ->]; [now contradiction Hsome |].
    exists st. simpl in *. rewrite app_nil_r in Hactive. now rewrite Hactive.
  - cbn [seq map run_settles].
    destruct chunks as [| c chunks].
    + (* nothing is running *)
      destruct Hwin as [-> | ->]; [now contradiction Hsome |].
      rewrite settle_miss.
      * apply (IH (S a) st done (Z.of_nat (S a)) []); try assumption; try lia;
          try (now right); try discriminate.
        unfold len. simpl List.length. lia.
      * rewrite Hactive, find_running_settled by assumption. reflexivity.
    + destruct (Z.eq_dec j (Z.of_nat a)) as [-> | Hne].
      * (* chunk [a] is the first running chunk *)
        destruct (settle_first_running (Z.of_nat a) c st done
                    (map (admitted options processor)
                       (entries_from (Z.of_nat a + 1) chunks)) Hactive Hdone)
          as (st1 & -> & Hq & Ha).
        destruct (IH (S a) st1 _ (Z.of_nat a + 1) chunks
                    (match winner with Some _ => winner | None => Some Fulfilled end)
                    Ha)
          as (st' & Hrun & Hall & Hq').
        -- apply Forall_app. split; [assumption |]. now repeat constructor.
        -- lia.
        -- rewrite len_cons in Hhigh. lia.
        -- destruct Hwin as [-> | ->]; now right.
        -- destruct Hwin as [-> | ->]; discriminate.
        -- exists st'. repeat split; [exact Hrun | exact Hall | congruence].
      * (* chunk [a] is not running: the running chunks come later *)
        rewrite settle_miss.
        -- replace (match winner with Some _ => winner | None => None end)
             with winner by now destruct winner.
           apply (IH (S a) st done j (c :: chunks) winner); try assumption; lia.
        -- rewrite Hactive, find_running_settled by assumption.
           apply find_running_later. lia.
Qed.

Lemma reap_all_fulfilled (probe : Z -> bool) (active : list (ActivePromise T)) :
  (forall k, probe k = true) ->
  Forall (fun p => state p = Fulfilled) active ->
  reap probe active = inr [].
Proof.
  intros Hprobe. induction 1 as [| p active Hp _ IH]; [reflexivity |].
  simpl. now rewrite IH, Hp, Hprobe.
Qed.

(** With room for at least one chunk, callbacks that return and no abort
    signal, the loop returns within one turn per queued chunk when every
    running chunk completes in each turn and every clean-up observes every
    settlement. *)
Lemma schedule_loop_completes (n : nat) (turns : nat) :
  forall (st : Pool T R) i chunks,
  processingQueue st = entries_from i chunks ->
  activePromises st = [] ->
  0 <= i -> i + len chunks <= Z.of_nat n ->
  (List.length chunks <= turns)%nat ->
  snd (schedule_loop options processor totalChunks (repeat (in_order n) turns) st) =
    Returned tt.
Proof.
  induction turns as [| turns IH]; intros st i chunks Hqueue Hactive Hi Hn Hturns.
  - destruct chunks; [| simpl in Hturns; lia].
    simpl. now rewrite Hqueue, Hactive.
  - destruct chunks as [| c chunks].
    { simpl. now rewrite Hqueue, Hactive. }
    cbn [repeat schedule_loop]. rewrite Hqueue at 1. cbn [entries_from is_empty andb].
    unfold is_aborted. rewrite no_signal.
    unfold fill. rewrite Hqueue, Hactive.
    destruct (admit_chunks_prefix (entries_from i (c :: chunks)) [])
      as (m & Hadmit & Hle & Hm).
    rewrite length_entries_from in Hle.
    rewrite Hadmit. cbn [activePromises app].
    specialize (Hm ltac:(discriminate) ltac:(cbn; lia)).
    destruct m as [| m]; [lia |].
    rewrite firstn_entries_from, skipn_entries_from.
    cbn [firstn entries_from map is_empty]. unfold await_race.
    cbn [activePromises first_settled find is_pending admitted state negb].
    set (st1 := {| processingQueue := _ |}).
    destruct (run_settles_in_order n 0 st1 [] i (c :: firstn m chunks) None)
      as (st2 & Hrun & Hall & Hq).
    + reflexivity.
    + constructor.
    + lia.
    + rewrite len_cons in Hn |- *.
      assert (len (firstn m chunks) <= len chunks)
        by (unfold len; rewrite length_firstn; lia).
      simpl. lia.
    + now left.
    + discriminate.
    + rewrite first_settled_none
        by (constructor; [reflexivity | apply Forall_map, Forall_forall; reflexivity]).
      change (settles (in_order n)) with (map Z.of_nat (seq 0 n)).
      rewrite Hrun. change (probe (in_order n)) with (fun _ : Z => true).
      rewrite (reap_all_fulfilled _ _ (fun _ => eq_refl) Hall).
      apply (IH _ (i + Z.of_nat (S m)) (skipn (S m) (c :: chunks))).
      * cbn [processingQueue next_turn]. rewrite Hq. reflexivity.
      * reflexivity.
      * lia.
      * unfold len in *. rewrite length_skipn. lia.
      * rewrite length_skipn. simpl in Hturns |- *. lia.
Qed.
End Completion.



(** ** Scenarios *)

(** With [retries = 1] and an operation that always fails with a retryable
    error, the chunk fails after one backoff, with one retryable error per
    item. *)
Example retry_budget_exceeded :
  processChunkWithRetry always_deadlocks [7; 8] 0 1 1000 =
  ({| ChunkResult.chunkIndex := 0;
      ChunkResult.items := [7; 8];
      ChunkResult.succeeded := 0;
      ChunkResult.failed := 2;
      ChunkResult.errors :=
        [ {| BatchError.index := 0; BatchError.item := 7;
             BatchError.error := Some "Deadlock detected"%string;
             BatchError.retryable := true |};
          {| BatchError.index := 1; BatchError.item := 8;
             BatchError.error := Some "Deadlock detected"%string;
             BatchError.retryable := true |} ] |},
   [Sleep 1000; Warn 0 2 2]).
Proof. reflexivity. Qed.

(** A terminal error on the first attempt fails the chunk without a backoff. *)
Example terminal_error_no_backoff :
  snd (processChunkWithRetry always_fails [7; 8] 0 2 1000) = [] /\
  ChunkResult.failed (fst (processChunkWithRetry always_fails [7; 8] 0 2 1000)) = 2.
Proof. split; reflexivity. Qed.

(** 150 failing single-item chunks: [failed] is 150 and 100 errors are listed. *)
Example error_cap_150 :
  match outcome (processBatch (job (numbers 150) 1 None) always_fails 151
                   (repeat (in_order 150) 50)) with
  | Returned r =>
      BatchResult.failed r = 150 /\ BatchResult.success r = false /\
      len (BatchResult.errors r) = 100
  | _ => False
  end.
Proof. vm_compute. repeat split. Qed.

(** 2500 items in chunks of 500 with concurrency 3 and no failure: five
    chunks, all items succeeded. *)
Example end_to_end_2500 :
  option_map (@List.length (list Z)) (split_chunks 2501 (numbers 2500) 500) = Some 5%nat /\
  match outcome (processBatch (job (numbers 2500) 500 None) echo 2501
                   (repeat (in_order 5) 2)) with
  | Returned r =>
      BatchResult.succeeded r = 2500 /\ BatchResult.failed r = 0 /\
      BatchResult.success r = true /\ BatchResult.total r = 2500
  | _ => False
  end.
Proof. vm_compute. repeat split. Qed.

(** ** More on the chunk executor *)

Section ChunkExecutorBounds.
Context {T R : Type}.
Variable processor : Processor T R.
Variable chunk : list T.
Variables chunkIndex retries retryDelay : Z.

(** As long as the loop counts down to attempt [retries], it sleeps before
    every attempt but its first, and never after the last one. *)
Lemma attempt_loop_sleeps (remaining : nat) : forall attempt errors,
  Z.of_nat remaining + attempt = retries + 1 ->
  exists m,
    (m <= Nat.pred remaining)%nat /\
    sleeps (snd (attempt_loop processor chunk chunkIndex retries retryDelay
                   remaining attempt errors)) =
    map (fun a => retryDelay * (attempt + Z.of_nat a)) (seq 1 m).
Proof.
  induction remaining as [| remaining IH]; intros attempt errors Hcount.
  - exists 0%nat. split; [reflexivity | reflexivity].
  - cbn [attempt_loop].
    destruct (processor chunk chunkIndex attempt) as [results | lastError].
    + exists 0%nat. split; [lia | reflexivity].
    + destruct (Z.eqb_spec attempt retries) as [Hlast | Hmore].
      * rewrite orb_true_r. exists 0%nat. split; [lia | reflexivity].
      * destruct (negb (isRetryableError lastError)); cbn [orb].
        { exists 0%nat. split; [lia | reflexivity]. }
        destruct (IH (attempt + 1) errors) as (m & Hm & Hsleeps); [lia |].
        destruct (attempt_loop processor chunk chunkIndex retries retryDelay
                    remaining (attempt + 1) errors) as [result trace].
        cbn [snd] in *. exists (S m). split; [lia |].
        cbn [sleeps flat_map app seq map].
        change (flat_map _ trace) with (sleeps trace).
        rewrite Hsleeps, <- (seq_shift m 1), map_map.
        f_equal; try (f_equal; lia).
        apply map_ext. intros a. f_equal. lia.
Qed.

(** What the loop reports: no error at all, or the errors of the whole chunk
    for the failure that ended it; a failure classified retryable ends the
    loop only at attempt [retries]. *)
Lemma attempt_loop_errors (remaining : nat) : forall attempt,
  let run := attempt_loop processor chunk chunkIndex retries retryDelay
               remaining attempt [] in
  ChunkResult.errors (fst run) = [] \/
  exists lastError k,
    processor chunk chunkIndex (attempt + Z.of_nat k) = Rejected lastError /\
    ChunkResult.errors (fst run) = item_errors chunk chunkIndex lastError /\
    ChunkResult.succeeded (fst run) = 0 /\
    ChunkResult.failed (fst run) = len chunk /\
    List.length (sleeps (snd run)) = k /\
    (isRetryableError lastError = true -> attempt + Z.of_nat k = retries).
Proof.
  induction remaining as [| remaining IH]; intros attempt; cbn zeta.
  - now left.
  - cbn [attempt_loop].
    destruct (processor chunk chunkIndex attempt) as [results | lastError] eqn:Hcall.
    + now left.
    + destruct (negb (isRetryableError lastError) || (attempt =? retries)) eqn:Hstop.
      * right. exists lastError, 0%nat. rewrite Z.add_0_r.
        cbn [fst snd failed_chunk ChunkResult.errors ChunkResult.succeeded
               ChunkResult.failed sleeps flat_map List.length].
        rewrite push_errors_spec. repeat split; try assumption.
        intros Hretry. rewrite Hretry in Hstop. cbn [negb orb] in Hstop.
        now apply Z.eqb_eq.
      * specialize (IH (attempt + 1)). cbn zeta in IH.
        destruct (attempt_loop processor chunk chunkIndex retries retryDelay
                    remaining (attempt + 1) []) as [result trace].
        cbn [fst snd] in *.
        destruct IH as [Hnone | (lastError' & k & Hcall' & Herrors & Hs & Hf & Hk & Hflag)];
          [now left |].
        right. exists lastError', (S k).
        replace (attempt + Z.of_nat (S k)) with (attempt + 1 + Z.of_nat k) by lia.
        repeat split; try assumption.
        cbn [sleeps flat_map app List.length]. change (flat_map _ trace) with (sleeps trace).
        now rewrite Hk.
Qed.
End ChunkExecutorBounds.

(** X7. Whatever the operation does, the executor sleeps at most [retries]
    times, and the waits are [retryDelay * 1, retryDelay * 2, ...] in this
    order: no wait is skipped, repeated or reordered. *)
Theorem backoff_is_linear_prefix {T R : Type} (processor : Processor T R)
    (chunk : list T) (chunkIndex retries retryDelay : Z) :
  exists m,
    Z.of_nat m <= Z.max 0 retries /\
    sleeps (snd (processChunkWithRetry processor chunk chunkIndex retries retryDelay)) =
      linear_backoff retryDelay m.
Proof.
  unfold processChunkWithRetry, linear_backoff.
  destruct (Z.le_gt_cases 0 (retries + 1)) as [Hsome | Hnone].
  - destruct (attempt_loop_sleeps processor chunk chunkIndex retries retryDelay
                (Z.to_nat (retries + 1)) 0 []) as (m & Hm & Hsleeps); [lia |].
    exists m. split; [lia |]. rewrite Hsleeps. apply map_ext. intros a. f_equal.
  - replace (Z.to_nat (retries + 1)) with 0%nat by lia.
    exists 0%nat. split; [lia | reflexivity].
Qed.


(** ** More on the worker pool *)

(** *** What the callbacks fold, on an arbitrary invariant of the counters *)

Section Folding.
Context {T R : Type}.
Variable options : BatchOptions.t T.
Variable processor : Processor T R.
Variable totalChunks : Z.
Variable Q : ChunkResult.t T -> Prop.
Variable I : Pool T R -> Prop.
Hypothesis results_ok : forall entry, Q (chunk_result options processor entry).
Hypothesis fold_ok : forall st r,
  Q r -> I st -> I (fst (on_chunk_result options totalChunks st r)).
Hypothesis counters_only : forall st st', counters st = counters st' -> I st -> I st'.

Lemma admit_chunks_results (queue : list (Z * list T)) : forall active,
  Forall (fun p => Q (result p)) active ->
  Forall (fun p => Q (result p)) (snd (admit_chunks options processor queue active)).
Proof.
  induction queue as [| entry queue IH]; intros active Hall; simpl; [exact Hall |].
  destruct (len active <? concurrency_of options); [| exact Hall].
  apply IH, Forall_app. split; [exact Hall |]. constructor; [| constructor].
  apply results_ok.
Qed.

Lemma mark_settled_results (k : Z) (s : PromiseState) (active : list (ActivePromise T)) :
  Forall (fun p => Q (result p)) active ->
  Forall (fun p => Q (result p)) (mark_settled k s active).
Proof.
  induction 1 as [| p active Hp Hall IH]; simpl; [constructor |].
  destruct (is_running k p); constructor; assumption.
Qed.

Lemma reap_keeps (P : ActivePromise T -> Prop) (probe : Z -> bool)
    (active : list (ActivePromise T)) : forall active',
  reap probe active = inr active' -> Forall P active -> Forall P active'.
Proof.
  induction active as [| p active IH]; intros active' Hreap Hall; simpl in Hreap.
  - now injection Hreap as <-.
  - inversion Hall as [| ? ? Hp Hrest]; subst.
    destruct (reap probe active) as [e | rest]; [discriminate |].
    specialize (IH rest eq_refl Hrest).
    destruct (state p); [| destruct (probe _) | destruct (probe _); [discriminate |]];
      injection Hreap as <-; try constructor; assumption.
Qed.

(** An invariant of the counters that every fold of a chunk's result keeps
    holds whenever the loop stops. *)
Lemma schedule_loop_folds (schedule : list Tick) (st : Pool T R) :
  I st ->
  Forall (fun p => Q (result p)) (activePromises st) ->
  I (fst (schedule_loop options processor totalChunks schedule st)).
Proof.
  intros HI Hall.
  apply (schedule_loop_preserves options processor totalChunks
           (fun st => I st /\ Forall (fun p => Q (result p)) (activePromises st)));
    [| | | now split].
  - intros st0 [HI0 Hall0]. unfold fill.
    pose proof (admit_chunks_results (processingQueue st0) _ Hall0) as Hadmitted.
    destruct (admit_chunks options processor (processingQueue st0) (activePromises st0))
      as [queue active].
    split; [| exact Hadmitted]. now apply (counters_only st0).
  - intros k st0 [HI0 Hall0]. unfold settle.
    destruct (find (is_running k) (activePromises st0)) as [p |] eqn:Hfind;
      [| now split].
    apply find_some in Hfind. destruct Hfind as [Hin _].
    assert (Hp : Q (result p)) by now apply (proj1 (Forall_forall _ _) Hall0).
    pose proof (fold_ok st0 (result p) Hp HI0) as HI1.
    destruct (on_chunk_result options totalChunks st0 (result p)) as [st1 s] eqn:Hfold.
    apply on_chunk_result_frame in Hfold. destruct Hfold as (_ & Ha & _).
    cbn [fst] in *. split.
    + now apply (counters_only st1).
    + cbn [activePromises with_active]. rewrite Ha. now apply mark_settled_results.
  - intros st0 active [HI0 Hall0] Hnext. split.
    + now apply (counters_only st0).
    + cbn [activePromises next_turn].
      destruct Hnext as [[probe Hreap] | ->]; [| exact Hall0].
      exact (reap_keeps _ _ _ _ Hreap Hall0).
Qed.
End Folding.

(** A run that returns has stopped with an empty queue and no active promise,
    and hands out the final counters. *)
Lemma processBatch_run_returned {T R : Type} (options : BatchOptions.t T)
    (processor : Processor T R) (fuel : nat) (schedule : list Tick)
    (r : BatchResult.t T R) :
  outcome (processBatch options processor fuel schedule) = Returned r ->
  exists chunks,
    split_chunks fuel (items_of options) (chunkSize_of options) = Some chunks /\
    snd (schedule_loop options processor (len chunks) schedule (initial_pool chunks)) =
      Returned tt /\
    r = batch_result options
          (fst (schedule_loop options processor (len chunks) schedule
                  (initial_pool chunks))) /\
    reported (processBatch options processor fuel schedule) =
      progressReports
        (fst (schedule_loop options processor (len chunks) schedule
                (initial_pool chunks))) /\
    completed (processBatch options processor fuel schedule) =
      chunkReports
        (fst (schedule_loop options processor (len chunks) schedule
                (initial_pool chunks))).
Proof.
  unfold processBatch. intros Hrun.
  destruct (split_chunks fuel (items_of options) (chunkSize_of options))
    as [chunks |]; [| discriminate].
  exists chunks.
  destruct (schedule_loop options processor (len chunks) schedule (initial_pool chunks))
    as [st exit].
  cbn [outcome reported completed fst snd] in *.
  destruct exit as [[] | e | |]; try discriminate.
  injection Hrun as <-. repeat split.
Qed.

Lemma sum_over_ones {A : Type} (l : list A) : forall i,
  sum_over (fun _ : Z * A => 1) (entries_from i l) = len l.
Proof.
  induction l as [| x l IH]; intros i; [reflexivity |].
  cbn [entries_from sum_over fold_right].
  change (fold_right _ 0 (entries_from (i + 1) l))
    with (sum_over (fun _ : Z * A => 1) (entries_from (i + 1) l)).
  rewrite IH, len_cons. lia.
Qed.

(** When the loop returns, every chunk has been folded once. *)
Lemma schedule_loop_sums {T R : Type} (options : BatchOptions.t T)
    (processor : Processor T R) (chunks : list (list T)) (schedule : list Tick) :
  snd (schedule_loop options processor (len chunks) schedule (initial_pool chunks)) =
    Returned tt ->
  let st := fst (schedule_loop options processor (len chunks) schedule
                   (initial_pool chunks)) in
  succeeded st =
    sum_over (fun entry => ChunkResult.succeeded (chunk_result options processor entry))
      (entries chunks) /\
  failed st =
    sum_over (fun entry => ChunkResult.failed (chunk_result options processor entry))
      (entries chunks) /\
  processedChunks st = len chunks.
Proof.
  intros Hexit st.
  destruct (schedule_loop options processor (len chunks) schedule (initial_pool chunks))
    as [st' exit] eqn:Hloop.
  cbn [fst snd] in *. subst exit st.
  destruct (schedule_loop_returned _ _ _ _ _ _ Hloop) as [Hqueue Hactive].
  assert (Hinv : forall (w : ChunkResult.t T -> Z) (acc : Pool T R -> Z),
            (forall st0 st1 r s,
               on_chunk_result options (len chunks) st0 r = (st1, s) ->
               acc st1 = acc st0 + w r) ->
            (forall st0 active, acc (with_active st0 active) = acc st0) ->
            (forall st0 active, acc (next_turn st0 active) = acc st0) ->
            (forall st0, acc (fill options processor st0) = acc st0) ->
            acc (initial_pool chunks) = 0 ->
            acc st' = sum_over (fun entry => w (chunk_result options processor entry))
                        (entries chunks)).
  { intros w acc H1 H2 H3 H4 H0.
    pose proof (schedule_loop_accounted options processor (len chunks) w acc
                  (sum_over (fun entry => w (chunk_result options processor entry))
                     (entries chunks)) H1 H2 H3 H4 schedule (initial_pool chunks)) as Hacc.
    rewrite Hloop in Hacc. cbn [fst] in Hacc.
    unfold accounted, running_weight in Hacc. rewrite Hqueue, Hactive in Hacc.
    change (sum_over _ (@nil (Z * list T))) with 0 in Hacc.
    change (sum_over _ (@nil (ActivePromise T))) with 0 in Hacc.
    rewrite <- Hacc; [lia |]. rewrite H0.
    cbn [initial_pool processingQueue activePromises].
    change (sum_over _ (@nil (ActivePromise T))) with 0. lia. }
  assert (Hfill : forall (acc : Pool T R -> Z),
            (forall st0 queue active, acc
               {| processingQueue := queue; activePromises := active;
                  processedChunks := processedChunks st0; succeeded := succeeded st0;
                  failed := failed st0; allErrors := allErrors st0;
                  allResults := allResults st0; progressReports := progressReports st0;
                  chunkReports := chunkReports st0; turn := turn st0 |} = acc st0) ->
            forall st0, acc (fill options processor st0) = acc st0).
  { intros acc H st0. unfold fill. destruct (admit_chunks _ _ _ _). apply H. }
  split; [| split].
  - apply (Hinv ChunkResult.succeeded succeeded); try reflexivity.
    + intros st0 st1 r s Hfold. now apply on_chunk_result_frame in Hfold.
    + now apply Hfill.
  - apply (Hinv ChunkResult.failed failed); try reflexivity.
    + intros st0 st1 r s Hfold. now apply on_chunk_result_frame in Hfold.
    + now apply Hfill.
  - rewrite (Hinv (fun _ => 1) processedChunks); try reflexivity.
    + apply sum_over_ones.
    + intros st0 st1 r s Hfold. now apply on_chunk_result_frame in Hfold.
    + now apply Hfill.
Qed.

(** *** Edge cases of [processBatch] *)

(** X9. A job without items returns the empty, successful result, whatever
    its other options are: the chunk size and the concurrency are not looked
    at, no callback is invoked and the abort signal is not consulted. *)
Theorem empty_job_returns {T R : Type} (options : BatchOptions.t T)
    (processor : Processor T R) (fuel : nat) (schedule : list Tick) :
  BatchOptions.items options = [] ->
  processBatch options processor (S fuel) schedule =
    {| outcome := Returned nothing_done; reported := []; completed := [] |}.
Proof.
  intros Hitems. unfold processBatch, items_of. rewrite Hitems, split_chunks_empty.
  destruct schedule; cbn; unfold batch_result, nothing_done, items_of;
    now rewrite Hitems.
Qed.

Lemma empty_job_returns_witness :
  processBatch hostile_empty_job echo 1 [in_order 3] =
    {| outcome := Returned nothing_done; reported := []; completed := [] |}.
Proof. apply (empty_job_returns hostile_empty_job echo 0 [in_order 3]). reflexivity. Defined.

(** X10. A signal that is already aborted when a job with at least one item
    starts makes [processBatch] throw the abort error before any chunk is
    admitted: no callback has been invoked. *)
Theorem aborted_before_start {T R : Type} (options : BatchOptions.t T)
    (processor : Processor T R) (signal : AbortSignal) (fuel : nat)
    (tick : Tick) (schedule : list Tick) :
  BatchOptions.abortSignal options = Some signal ->
  signal 0%nat = true ->
  BatchOptions.items options <> [] ->
  1 <= chunkSize_of options ->
  (List.length (BatchOptions.items options) < fuel)%nat ->
  processBatch options processor fuel (tick :: schedule) =
    {| outcome := Thrown aborted_error; reported := []; completed := [] |}.
Proof.
  intros Hsignal Haborted Hitems Hsize Hfuel. unfold processBatch, split_chunks.
  destruct (chunk_loop_total (items_of options) (chunkSize_of options) Hsize fuel 0)
    as [chunks Hsplit]; [lia | unfold len, items_of; lia |].
  rewrite Hsplit.
  pose proof (split_chunks_nonempty _ _ _ _ Hsplit Hitems) as Hchunks.
  destruct chunks as [| c chunks]; [congruence |].
  cbn [schedule_loop initial_pool processingQueue entries entries_from is_empty andb].
  unfold is_aborted. rewrite Hsignal.
  change (turn (@initial_pool T R (c :: chunks))) with 0%nat.
  now rewrite Haborted.
Qed.

Lemma aborted_before_start_witness :
  processBatch (tuned_job [1; 2; 3] 2 None None None (Some (fun _ => true))) echo 4
    [in_order 2; in_order 2] =
    {| outcome := Thrown aborted_error; reported := []; completed := [] |}.
Proof.
  apply (aborted_before_start
           (tuned_job [1; 2; 3] 2 None None None (Some (fun _ => true))) echo
           (fun _ => true) 4 (in_order 2) [in_order 2]).
  - reflexivity.
  - reflexivity.
  - discriminate.
  - unfold chunkSize_of. simpl. lia.
  - simpl. lia.
Defined.

Section Starvation.
Context {T R : Type}.
Variable options : BatchOptions.t T.
Variable processor : Processor T R.
Variable totalChunks : Z.
Hypothesis no_room : concurrency_of options <= 0.

Lemma admit_chunks_no_room (queue : list (Z * list T)) :
  admit_chunks options processor queue [] = (queue, []).
Proof.
  destruct queue as [| entry queue]; [reflexivity |]. simpl.
  destruct (Z.ltb_spec (len (@nil (ActivePromise T))) (concurrency_of options))
    as [Hlt | _]; [| reflexivity].
  unfold len in Hlt. simpl in Hlt. lia.
Qed.

(** Without room for a single chunk the loop turns idle: nothing is admitted,
    nothing is reported, and only an abort ends it. *)
Lemma schedule_loop_starves (schedule : list Tick) : forall st : Pool T R,
  processingQueue st <> [] -> activePromises st = [] ->
  let run := schedule_loop options processor totalChunks schedule st in
  counters (fst run) = counters st /\
  (snd run = OutOfFuel \/ snd run = Thrown aborted_error).
Proof.
  induction schedule as [| tick schedule IH]; intros st Hqueue Hactive; cbn zeta;
    simpl; rewrite Hactive;
    destruct (processingQueue st) as [| entry queue] eqn:Hq; try congruence;
    cbn [is_empty andb].
  - split; [reflexivity | now left].
  - destruct (is_aborted options st); [split; [reflexivity | now right] |].
    unfold fill. rewrite Hq, Hactive, admit_chunks_no_room.
    cbn [activePromises is_empty].
    match goal with
    | |- context [schedule_loop _ _ _ _ ?st1] =>
        specialize (IH st1 ltac:(cbn; discriminate) eq_refl)
    end.
    cbn zeta in IH. destruct IH as [Hcounters Hexit].
    split; [| exact Hexit]. rewrite Hcounters. reflexivity.
Qed.
End Starvation.

(** X11. With a concurrency limit that is not positive, a job with at least
    one item never runs a chunk: no callback is invoked and no result is
    returned; the call ends only by an abort. *)
Theorem nonpositive_concurrency_starves {T R : Type} (options : BatchOptions.t T)
    (processor : Processor T R) (fuel : nat) (schedule : list Tick) :
  concurrency_of options <= 0 ->
  BatchOptions.items options <> [] ->
  reported (processBatch options processor fuel schedule) = [] /\
  completed (processBatch options processor fuel schedule) = [] /\
  (outcome (processBatch options processor fuel schedule) = OutOfFuel \/
   outcome (processBatch options processor fuel schedule) = Thrown aborted_error).
Proof.
  intros Hroom Hitems. unfold processBatch.
  destruct (split_chunks fuel (items_of options) (chunkSize_of options))
    as [chunks |] eqn:Hsplit; [| repeat split; now left].
  pose proof (split_chunks_nonempty _ _ _ _ Hsplit Hitems) as Hchunks.
  destruct (schedule_loop_starves options processor (len chunks) Hroom schedule
              (initial_pool chunks)) as [Hcounters Hexit].
  { cbn. now destruct chunks. }
  { reflexivity. }
  destruct (schedule_loop options processor (len chunks) schedule (initial_pool chunks))
    as [st exit].
  cbn [fst snd outcome reported completed] in *.
  unfold counters in Hcounters. cbn in Hcounters.
  injection Hcounters as _ _ _ _ _ Hreports Hchunk.
  repeat split; try assumption.
  destruct Hexit as [-> | ->]; [now left | now right].
Qed.

Lemma nonpositive_concurrency_starves_witness :
  reported (processBatch (tuned_job [1; 2; 3] 2 (Some 0) None None None) echo 4
              [in_order 2; in_order 2]) = [] /\
  completed (processBatch (tuned_job [1; 2; 3] 2 (Some 0) None None None) echo 4
               [in_order 2; in_order 2]) = [] /\
  (outcome (processBatch (tuned_job [1; 2; 3] 2 (Some 0) None None None) echo 4
              [in_order 2; in_order 2]) = OutOfFuel \/
   outcome (processBatch (tuned_job [1; 2; 3] 2 (Some 0) None None None) echo 4
              [in_order 2; in_order 2]) = Thrown aborted_error).
Proof.
  apply (nonpositive_concurrency_starves
           (tuned_job [1; 2; 3] 2 (Some 0) None None None) echo 4
           [in_order 2; in_order 2]).
  - unfold concurrency_of. simpl. lia.
  - discriminate.
Defined.

(** *** What the callbacks see *)

Lemma counters_eq {T R : Type} (st st' : Pool T R) :
  counters st = counters st' ->
  processedChunks st = processedChunks st' /\
  succeeded st = succeeded st' /\
  failed st = failed st' /\
  allErrors st = allErrors st' /\
  progressReports st = progressReports st' /\
  chunkReports st = chunkReports st'.
Proof. unfold counters. intros H. injection H as -> -> -> -> _ -> ->. repeat split. Qed.

(** The report handed to [onProgress] when a result is folded. *)
Lemma on_chunk_result_report {T R : Type} (options : BatchOptions.t T)
    (totalChunks : Z) (st : Pool T R) (r : ChunkResult.t T)
    (cb : Callback BatchProgress.t) :
  BatchOptions.onProgress options = Some cb ->
  progressReports (fst (on_chunk_result options totalChunks st r)) =
    progressReports st ++
    [ {| BatchProgress.total := len (items_of options);
         BatchProgress.processed := (processedChunks st + 1) * chunkSize_of options;
         BatchProgress.succeeded := succeeded st + ChunkResult.succeeded r;
         BatchProgress.failed := failed st + ChunkResult.failed r;
         BatchProgress.currentChunk := processedChunks st + 1;
         BatchProgress.totalChunks := totalChunks |} ].
Proof.
  intros Hcb. unfold on_chunk_result. rewrite Hcb. cbn [call_optional log_optional].
  destruct (cb _); [reflexivity |].
  now destruct (call_optional (BatchOptions.onChunkComplete options) r).
Qed.

Lemma on_chunk_result_counters {T R : Type} (options : BatchOptions.t T)
    (totalChunks : Z) (st : Pool T R) (r : ChunkResult.t T) :
  processedChunks (fst (on_chunk_result options totalChunks st r)) =
    processedChunks st + 1 /\
  succeeded (fst (on_chunk_result options totalChunks st r)) =
    succeeded st + ChunkResult.succeeded r /\
  failed (fst (on_chunk_result options totalChunks st r)) =
    failed st + ChunkResult.failed r /\
  allErrors (fst (on_chunk_result options totalChunks st r)) =
    allErrors st ++ ChunkResult.errors r.
Proof.
  unfold on_chunk_result.
  destruct (call_optional (BatchOptions.onProgress options) _);
    [| destruct (call_optional (BatchOptions.onChunkComplete options) r)];
    repeat split.
Qed.



Section ChunkReports.
Context {T R : Type}.
Variable options : BatchOptions.t T.
Variable processor : Processor T R.
Variable totalChunks : Z.
Variable cb : Callback (ChunkResult.t T).
Hypothesis chunk_sink : BatchOptions.onChunkComplete options = Some cb.
Hypothesis progress_returns :
  forall progress, call_optional (BatchOptions.onProgress options) progress = None.

(** The result is handed to [onChunkComplete] when it is folded. *)
Lemma on_chunk_result_reported (st : Pool T R) (r : ChunkResult.t T) :
  chunkReports (fst (on_chunk_result options totalChunks st r)) = chunkReports st ++ [r].
Proof.
  unfold on_chunk_result. rewrite progress_returns, chunk_sink.
  cbn [call_optional log_optional]. now destruct (cb r).
Qed.

Lemma running_app (l1 l2 : list (ActivePromise T)) :
  running (l1 ++ l2) = running l1 ++ running l2.
Proof. unfold running. now rewrite filter_app, map_app. Qed.

(** Admission moves chunks from the head of the queue to the end of the
    running promises. *)
Lemma admit_chunks_running (queue : list (Z * list T)) : forall active,
  running (snd (admit_chunks options processor queue active)) ++
  map (chunk_result options processor) (fst (admit_chunks options processor queue active)) =
  running active ++ map (chunk_result options processor) queue.
Proof.
  induction queue as [| entry queue IH]; intros active; simpl; [reflexivity |].
  destruct (len active <? concurrency_of options); [| reflexivity].
  rewrite IH, running_app, <- app_assoc. reflexivity.
Qed.

(** A settlement takes one promise out of the running ones. *)
Lemma mark_settled_running (k : Z) (s : PromiseState) (active : list (ActivePromise T))
    (p : ActivePromise T) :
  find (is_running k) active = Some p -> s <> Pending ->
  exists before after,
    running active = before ++ result p :: after /\
    running (mark_settled k s active) = before ++ after.
Proof.
  intros Hfind Hs. induction active as [| q active IH]; [discriminate |].
  simpl in Hfind |- *. destruct (is_running k q) eqn:Hq.
  - injection Hfind as ->. exists [], (running active).
    unfold is_running in Hq. apply andb_true_iff in Hq. destruct Hq as [_ Hpend].
    unfold running. cbn [filter]. rewrite Hpend.
    unfold is_pending at 2. cbn [state].
    destruct s; [congruence | split; reflexivity | split; reflexivity].
  - destruct (IH Hfind) as (before & after & Hrun & Hmark).
    unfold running in *. cbn [filter]. destruct (is_pending q).
    + exists (result q :: before), after. cbn [map]. now rewrite Hrun, Hmark.
    + exists before, after. now split.
Qed.

Lemma reap_running (probe : Z -> bool) (active : list (ActivePromise T)) :
  forall active', reap probe active = inr active' -> running active' = running active.
Proof.
  induction active as [| p active IH]; intros active' Hreap; simpl in Hreap.
  - now injection Hreap as <-.
  - destruct (reap probe active) as [e | rest]; [discriminate |].
    specialize (IH rest eq_refl). unfold running, is_pending in *.
    destruct (state p) eqn:Hp;
      [| destruct (probe _) | destruct (probe _); [discriminate |]];
      injection Hreap as <-; cbn [filter map]; rewrite ?Hp; cbn [map]; congruence.
Qed.

(** The chunks handed to [onChunkComplete], the running ones and the queued
    ones are, together, the chunks of the job. *)
Lemma schedule_loop_exactly_once (all : list (ChunkResult.t T)) (schedule : list Tick)
    (st : Pool T R) :
  Permutation
    (chunkReports st ++ running (activePromises st) ++
     map (chunk_result options processor) (processingQueue st)) all ->
  Permutation
    (chunkReports (fst (schedule_loop options processor totalChunks schedule st)) ++
     running (activePromises (fst (schedule_loop options processor totalChunks schedule st)))
     ++ map (chunk_result options processor)
          (processingQueue (fst (schedule_loop options processor totalChunks schedule st))))
    all.
Proof.
  apply (schedule_loop_preserves options processor totalChunks
           (fun st => Permutation
                        (chunkReports st ++ running (activePromises st) ++
                         map (chunk_result options processor) (processingQueue st)) all)).
  - intros st0 Hperm. unfold fill.
    pose proof (admit_chunks_running (processingQueue st0) (activePromises st0)) as Hadmit.
    destruct (admit_chunks options processor (processingQueue st0) (activePromises st0))
      as [queue active].
    cbn [fst snd chunkReports activePromises processingQueue] in *.
    now rewrite Hadmit.
  - intros k st0 Hperm. unfold settle.
    destruct (find (is_running k) (activePromises st0)) as [p |] eqn:Hfind;
      [| exact Hperm].
    pose proof (on_chunk_result_reported st0 (result p)) as Hreported.
    destruct (on_chunk_result options totalChunks st0 (result p)) as [st1 s] eqn:Hfold.
    apply on_chunk_result_frame in Hfold.
    destruct Hfold as (Hq & Ha & _ & _ & _ & _ & _ & Hs).
    cbn [fst chunkReports activePromises processingQueue with_active] in *.
    rewrite Ha, Hq, Hreported.
    destruct (mark_settled_running k s _ p Hfind Hs) as (before & after & Hrun & Hmark).
    rewrite Hmark. rewrite Hrun in Hperm.
    rewrite <- Hperm, <- !app_assoc.
    apply Permutation_app_head. cbn [app].
    rewrite <- Permutation_middle. reflexivity.
  - intros st0 active Hperm [[probe Hreap] | ->];
      cbn [chunkReports activePromises processingQueue next_turn]; [| exact Hperm].
    now rewrite (reap_running _ _ _ Hreap).
Qed.
End ChunkReports.





(** Chunk 2 completes first: [onChunkComplete] sees the chunks in the order
    2, 0, 1. *)
Example completion_order_is_reported :
  map ChunkResult.chunkIndex
    (completed (processBatch (tuned_job [1; 2; 3; 4; 5] 2 None None (Some quiet) None)
                  fails_chunk_one 6 [out_of_order])) = [2; 0; 1].
Proof. reflexivity. Qed.

(** ** The specializations *)

(** *** What the result of a job sums up *)

(** The counts of a returned result are the sums over the chunks, its error
    list is the head of the folded errors, and it has no [results]. *)
Lemma returned_totals {T R : Type} (options : BatchOptions.t T)
    (processor : Processor T R) (fuel : nat) (schedule : list Tick)
    (r : BatchResult.t T R) (Q : ChunkResult.t T -> Prop) (I : Pool T R -> Prop) :
  (forall entry, Q (chunk_result options processor entry)) ->
  (forall totalChunks st r0,
     Q r0 -> I st -> I (fst (on_chunk_result options totalChunks st r0))) ->
  (forall st st', counters st = counters st' -> I st -> I st') ->
  (forall chunks, I (initial_pool chunks)) ->
  outcome (processBatch options processor fuel schedule) = Returned r ->
  exists chunks st,
    split_chunks fuel (items_of options) (chunkSize_of options) = Some chunks /\
    r = batch_result options st /\ I st /\
    succeeded st =
      sum_over (fun entry => ChunkResult.succeeded (chunk_result options processor entry))
        (entries chunks) /\
    failed st =
      sum_over (fun entry => ChunkResult.failed (chunk_result options processor entry))
        (entries chunks) /\
    sum_over (fun entry => len (snd entry)) (entries chunks) =
      len (BatchOptions.items options).
Proof.
  intros HQ Hfold Hcounters Hinit Hrun.
  destruct (processBatch_run_returned _ _ _ _ _ Hrun)
    as (chunks & Hsplit & Hexit & -> & _ & _).
  destruct (schedule_loop_sums options processor chunks schedule Hexit) as (Hs & Hf & _).
  exists chunks, (fst (schedule_loop options processor (len chunks) schedule
                         (initial_pool chunks))).
  repeat split; try assumption.
  - apply (schedule_loop_folds options processor (len chunks) Q I); auto; constructor.
  - unfold entries. rewrite sum_over_chunk_lengths.
    now rewrite (split_chunks_concat _ _ _ _ Hsplit).
Qed.

Section FirstAttempt.
Context {T R : Type}.
Variable options : BatchOptions.t T.
Variable processor : Processor T R.

(** The result of a chunk whose first attempt succeeds. *)
Lemma chunk_result_first_success (entry : Z * list T) (results : list R) :
  0 <= retries_of options ->
  processor (snd entry) (fst entry) 0 = Resolved results ->
  ChunkResult.succeeded (chunk_result options processor entry) = len results /\
  ChunkResult.failed (chunk_result options processor entry) =
    len (snd entry) - len results /\
  ChunkResult.errors (chunk_result options processor entry) = [].
Proof.
  intros Hbudget Hcall. unfold chunk_result, processChunkWithRetry.
  replace (Z.to_nat (retries_of options + 1))
    with (S (Z.to_nat (retries_of options))) by lia.
  cbn [attempt_loop]. rewrite Hcall. repeat split.
Qed.

(** Without budget no attempt is made. *)
Lemma chunk_result_never_attempted (entry : Z * list T) :
  retries_of options < 0 ->
  ChunkResult.succeeded (chunk_result options processor entry) = 0 /\
  ChunkResult.failed (chunk_result options processor entry) = len (snd entry) /\
  ChunkResult.errors (chunk_result options processor entry) = [].
Proof.
  intros Hbudget. unfold chunk_result, processChunkWithRetry.
  replace (Z.to_nat (retries_of options + 1)) with 0%nat by lia.
  repeat split.
Qed.
End FirstAttempt.

Lemma sum_over_zero {A : Type} (w : A -> Z) (l : list A) :
  (forall x, w x = 0) -> sum_over w l = 0.
Proof.
  intros H. induction l as [| x l IH]; [reflexivity |].
  cbn [sum_over fold_right]. change (fold_right _ 0 l) with (sum_over w l).
  rewrite H, IH. reflexivity.
Qed.



(** *** [bulkValidate] *)

Lemma entries_from_app {A : Type} (l1 l2 : list A) : forall i,
  entries_from i (l1 ++ l2) = entries_from i l1 ++ entries_from (i + len l1) l2.
Proof.
  induction l1 as [| x l1 IH]; intros i.
  - simpl. now rewrite Z.add_0_r.
  - cbn [app entries_from]. rewrite IH, len_cons. do 3 f_equal. lia.
Qed.

Lemma entries_from_shift {A : Type} (base : Z) (l : list A) : forall i,
  map (fun entry => (snd entry, base + fst entry)) (entries_from i l) =
  map (fun entry => (snd entry, fst entry)) (entries_from (base + i) l).
Proof.
  induction l as [| x l IH]; intros i; [reflexivity |].
  cbn [entries_from map fst snd]. rewrite IH. do 3 f_equal. lia.
Qed.

(** Chunk by chunk, the validator calls run through the items with their
    positions. *)
Lemma chunk_loop_validator_calls {T : Type} (items : list T) (chunkSize : Z)
    (fuel : nat) : forall i j chunks,
  1 <= chunkSize -> 0 <= j -> i = j * chunkSize ->
  chunk_loop fuel items chunkSize i [] = Some chunks ->
  flat_map (fun entry => validator_calls chunkSize (snd entry) (fst entry))
    (entries_from j chunks) =
  map (fun entry => (snd entry, fst entry))
    (entries_from i (skipn (Z.to_nat i) items)).
Proof.
  induction fuel as [| fuel IH]; intros i j chunks Hsize Hj Hi Hrun; [discriminate |].
  rewrite chunk_loop_step in Hrun.
  destruct (Z.ltb_spec i (len items)) as [Hlt | Hge].
  - destruct (chunk_loop fuel items chunkSize (i + chunkSize) []) as [rest |] eqn:Hrest;
      [| discriminate].
    injection Hrun as <-.
    cbn [entries_from flat_map fst snd].
    rewrite (IH (i + chunkSize) (j + 1) rest) by (assumption || lia).
    unfold validator_calls, entries.
    rewrite entries_from_shift, Z.add_0_r, <- Hi.
    rewrite slice_window by lia.
    set (l := skipn (Z.to_nat i) items).
    replace (skipn (Z.to_nat (i + chunkSize)) items) with (skipn (Z.to_nat chunkSize) l)
      by (subst l; rewrite skipn_skipn; f_equal; lia).
    rewrite <- (firstn_skipn (Z.to_nat chunkSize) l) at 3.
    rewrite entries_from_app, map_app. f_equal.
    destruct (Nat.le_gt_cases (Z.to_nat chunkSize) (List.length l)) as [Hfull | Hshort].
    + do 2 f_equal. unfold len. rewrite length_firstn. lia.
    + now rewrite skipn_all2 by lia.
  - injection Hrun as <-. rewrite skipn_all2 by (unfold len in Hge; lia). reflexivity.
Qed.

(** X16. [bulkValidate] calls the validator with the true position of each
    item: over the chunks of a job, the calls are, in order, [(item, k)] for
    the item at position [k] of the input, also in a short last chunk. *)
Theorem bulkValidate_passes_global_indices {T : Type} (items : list T)
    (options : BatchOptions.t T) (fuel : nat) (chunks : list (list T)) :
  1 <= or_default (BatchOptions.chunkSize options) 1000 ->
  split_chunks fuel items (or_default (BatchOptions.chunkSize options) 1000) =
    Some chunks ->
  flat_map
    (fun entry =>
       validator_calls (or_default (BatchOptions.chunkSize options) 1000)
         (snd entry) (fst entry))
    (entries chunks) =
  map (fun entry => (snd entry, fst entry)) (entries items).
Proof.
  intros Hsize Hsplit. unfold entries.
  now rewrite (chunk_loop_validator_calls items _ fuel 0 0 chunks Hsize
                 (Z.le_refl 0) eq_refl Hsplit).
Qed.

Lemma bulkValidate_passes_global_indices_witness :
  flat_map
    (fun entry =>
       validator_calls (or_default (BatchOptions.chunkSize (job [] 2 None)) 1000)
         (snd entry) (fst entry))
    (entries [[10; 20]; [30]]) =
  map (fun entry => (snd entry, fst entry)) (entries [10; 20; 30]).
Proof.
  apply (bulkValidate_passes_global_indices [10; 20; 30] (job [] 2 None) 4).
  - simpl. lia.
  - reflexivity.
Defined.

Lemma Promise_all_fulfils {A : Type} (ps : list (Settlement A)) :
  (forall p, In p ps -> exists v, settled_to p = Fulfils v) ->
  Promise_all ps = Fulfils (fulfilled_values ps) /\
  List.length (fulfilled_values ps) = List.length ps.
Proof.
  intros Hall. unfold Promise_all.
  enough (H : first_rejection ps = None /\
              List.length (fulfilled_values ps) = List.length ps)
    by (destruct H as [-> H]; now split).
  induction ps as [| p ps IH]; [now split |].
  destruct (Hall p (or_introl eq_refl)) as [v Hv].
  destruct IH as [Hnone Hlen]; [intros q Hq; apply Hall; now right |].
  cbn [first_rejection fulfilled_values]. rewrite Hv, Hnone. cbn [List.length].
  now rewrite Hlen.
Qed.

(** With validators that return, the processor of [bulkValidate] returns one
    entry per item. *)
Lemma validate_processor_returns {T : Type} (validator : Validator T) (chunkSize : Z)
    (chunk : list T) (chunkIndex attempt : Z) :
  (forall item index attempt,
     exists messages, settled_to (validator item index attempt) = Fulfils messages) ->
  exists results,
    validate_processor validator chunkSize chunk chunkIndex attempt = Resolved results /\
    len results = len chunk.
Proof.
  intros Hreturns. unfold validate_processor.
  destruct (Promise_all_fulfils
              (map (validate_item validator attempt)
                 (validator_calls chunkSize chunk chunkIndex))) as [-> Hlen].
  - intros p Hp. apply in_map_iff in Hp. destruct Hp as (call & <- & _).
    unfold validate_item. cbn [settled_to].
    destruct (Hreturns (fst call) (snd call) attempt) as [messages ->]. now eexists.
  - eexists. split; [reflexivity |].
    unfold len. rewrite Hlen. unfold validator_calls, entries.
    now rewrite !length_map, length_entries_from.
Qed.

(** Results that account for every item of their chunk, without an error. *)
Lemma returned_all_succeeded {T R : Type} (options : BatchOptions.t T)
    (processor : Processor T R) (fuel : nat) (schedule : list Tick)
    (r : BatchResult.t T R) :
  (forall entry,
     ChunkResult.succeeded (chunk_result options processor entry) = len (snd entry) /\
     ChunkResult.failed (chunk_result options processor entry) = 0 /\
     ChunkResult.errors (chunk_result options processor entry) = []) ->
  outcome (processBatch options processor fuel schedule) = Returned r ->
  BatchResult.succeeded r = len (BatchOptions.items options) /\
  BatchResult.failed r = 0 /\
  BatchResult.success r = true /\
  BatchResult.errors r = [] /\
  BatchResult.results r = [].
Proof.
  intros Hchunk Hrun.
  destruct (returned_totals options processor fuel schedule r
              (fun r0 => ChunkResult.errors r0 = [])
              (fun st => allErrors st = [] /\ allResults st = []))
    as (chunks & st & _ & -> & [Herr Hres] & Hs & Hf & Hn); try assumption.
  - intros entry. apply Hchunk.
  - intros n st r0 Hr0 [Hst Hres].
    destruct (on_chunk_result_counters options n st r0) as (_ & _ & _ & ->).
    rewrite Hst, Hr0. split; [reflexivity |].
    destruct (on_chunk_result options n st r0) as [st' s] eqn:Hfold.
    apply on_chunk_result_frame in Hfold. cbn [fst]. now destruct Hfold as (_ & _ & _ & _ & _ & -> & _).
  - intros st st' Heq Hst. unfold counters in Heq.
    injection Heq as _ _ _ <- <- _ _. exact Hst.
  - now split.
  - cbn [batch_result BatchResult.succeeded BatchResult.failed BatchResult.errors
           BatchResult.success BatchResult.results].
    rewrite Herr, Hres, Hs, Hf.
    rewrite (sum_over_zero (fun entry => ChunkResult.failed _))
      by (intros entry; apply Hchunk).
    rewrite (sum_over_ext (fun entry => ChunkResult.succeeded _)
               (fun entry => len (snd entry)))
      by (intros entry; apply Hchunk).
    rewrite Hn. repeat split.
Qed.



(** *** [bulkInsert] *)

Lemma sum_over_opp {A : Type} (w : A -> Z) (l : list A) :
  sum_over (fun x => - w x) l = - sum_over w l.
Proof.
  induction l as [| x l IH]; [reflexivity |].
  change (sum_over (fun y => - w y) (x :: l))
    with (- w x + sum_over (fun y => - w y) l).
  change (sum_over w (x :: l)) with (w x + sum_over w l).
  rewrite IH. lia.
Qed.



(** *** [bulkUpdate] and [bulkDelete] *)

Section WholeChunk.
Context {T : Type}.
Variable processor : Processor T T.
Variable chunk : list T.
Variables chunkIndex retries retryDelay : Z.

(** A successful call returns as many results as the chunk has items. *)
Hypothesis whole_chunk : forall attempt results,
  processor chunk chunkIndex attempt = Resolved results -> len results = len chunk.

(** The loop ends with an attempt, which reports no failure or one error for
    each failed item. *)
Lemma attempt_loop_whole_chunk (remaining : nat) : forall attempt,
  attempt + Z.of_nat remaining = retries + 1 -> (1 <= remaining)%nat ->
  len (ChunkResult.errors
         (fst (attempt_loop processor chunk chunkIndex retries retryDelay
                 remaining attempt []))) =
  ChunkResult.failed
    (fst (attempt_loop processor chunk chunkIndex retries retryDelay
            remaining attempt [])).
Proof.
  induction remaining as [| remaining IH]; intros attempt Hturns Hsome; [lia |].
  cbn [attempt_loop].
  destruct (processor chunk chunkIndex attempt) as [results | lastError] eqn:Hcall.
  - cbn [fst ChunkResult.errors ChunkResult.failed].
    rewrite (whole_chunk attempt results Hcall). unfold len at 1. simpl. lia.
  - destruct (negb (isRetryableError lastError) || (attempt =? retries)) eqn:Hstop.
    + cbn [fst failed_chunk ChunkResult.errors ChunkResult.failed].
      rewrite push_errors_spec. unfold len, entries.
      now rewrite app_nil_l, length_map, length_entries_from.
    + apply orb_false_iff in Hstop. destruct Hstop as [_ Hmore].
      apply Z.eqb_neq in Hmore.
      specialize (IH (attempt + 1)).
      destruct (attempt_loop processor chunk chunkIndex retries retryDelay
                  remaining (attempt + 1) []) as [result trace].
      cbn [fst] in *. apply IH; lia.
Qed.
End WholeChunk.

(** With a processor that returns its chunk, the error list of a returned
    result has one entry for each failed item, up to the cap. *)
Lemma whole_chunk_errors {T : Type} (options : BatchOptions.t T)
    (processor : Processor T T) (fuel : nat) (schedule : list Tick)
    (r : BatchResult.t T T) :
  (forall chunk chunkIndex attempt results,
     processor chunk chunkIndex attempt = Resolved results -> len results = len chunk) ->
  0 <= retries_of options ->
  outcome (processBatch options processor fuel schedule) = Returned r ->
  len (BatchResult.errors r) = Z.min (BatchResult.failed r) 100.
Proof.
  intros Hwhole Hbudget Hrun.
  destruct (returned_totals options processor fuel schedule r
              (fun r0 => len (ChunkResult.errors r0) = ChunkResult.failed r0)
              (fun st => len (allErrors st) = failed st))
    as (chunks & st & _ & -> & Herr & _); try assumption.
  - intros entry. unfold chunk_result, processChunkWithRetry.
    apply attempt_loop_whole_chunk; [apply Hwhole | lia | lia].
  - intros n st r0 Hr0 Hst.
    destruct (on_chunk_result_counters options n st r0) as (_ & _ & -> & ->).
    rewrite len_app. lia.
  - intros st st' Heq. apply counters_eq in Heq.
    destruct Heq as (_ & _ & -> & -> & _). trivial.
  - reflexivity.
  - cbn [batch_result BatchResult.failed BatchResult.errors].
    change (slice (allErrors st) 0 100) with (slice (allErrors st) 0 (0 + 100)).
    rewrite slice_window_length by (pose proof (len_nonneg (allErrors st)); lia).
    lia.
Qed.





(** *** [processSKUImport] *)



(** *** [isRetryableError] *)

Lemma prefix_app_l (b c : string) : forall s,
  prefix (b ++ c) s = true -> prefix b s = true.
Proof.
  induction b as [| x b IH]; intros s H; [now destruct s |].
  destruct s as [| y s]; [discriminate |]. cbn [append prefix] in *.
  destruct (ascii_dec x y); [now apply IH | discriminate].
Qed.

Lemma includes_prefix (s sub : string) : prefix sub s = true -> includes s sub = true.
Proof. intros H. destruct s; cbn [includes]; now rewrite H. Qed.

Lemma includes_tail (c : ascii) (s sub : string) :
  includes s sub = true -> includes (String c s) sub = true.
Proof. intros H. cbn [includes]. rewrite H. apply orb_true_r. Qed.

Lemma prefix_app_includes (a b c : string) : forall s,
  prefix (a ++ b ++ c) s = true -> includes s b = true.
Proof.
  induction a as [| x a IH]; intros s H.
  - apply includes_prefix. now apply (prefix_app_l b c).
  - destruct s as [| y s]; [discriminate |]. cbn [append prefix] in H.
    destruct (ascii_dec x y); [| discriminate].
    apply includes_tail. now apply IH.
Qed.

(** A string that includes [a ++ b ++ c] includes [b]. *)
Lemma includes_infix (a b c : string) : forall s,
  includes s (a ++ b ++ c) = true -> includes s b = true.
Proof.
  induction s as [| y s IH]; intros H.
  - cbn [includes] in H. rewrite orb_false_r in H. now apply (prefix_app_includes a b c).
  - cbn [includes] in H. apply orb_true_iff in H. destruct H as [H | H].
    + now apply (prefix_app_includes a b c).
    + apply includes_tail. now apply IH.
Qed.

(** X22. The marker "too many connections" decides nothing: a message that
    includes it includes "connection", so the classification is the one of the
    four other markers. *)
Theorem too_many_connections_is_redundant (e : JsError) :
  isRetryableError e =
    includes (lowered_message e) "deadlock" ||
    includes (lowered_message e) "timeout" ||
    includes (lowered_message e) "connection" ||
    includes (lowered_message e) "serialization failure".
Proof.
  unfold isRetryableError. cbv zeta.
  destruct (includes (lowered_message e) "too many connections") eqn:Hmany.
  - rewrite (includes_infix "too many " "connection" "s" _ Hmany).
    now rewrite !orb_true_r.
  - now rewrite orb_false_r.
Qed.

(** *** What [processBatch] throws *)

Section NoThrow.
Context {T R : Type}.
Variable options : BatchOptions.t T.
Variable processor : Processor T R.
Variable totalChunks : Z.

Hypothesis onProgress_returns : forall p,
  call_optional (BatchOptions.onProgress options) p = None.
Hypothesis onChunkComplete_returns : forall r,
  call_optional (BatchOptions.onChunkComplete options) r = None.
Hypothesis never_aborted : forall signal t,
  BatchOptions.abortSignal options = Some signal -> signal t = false.

Lemma on_chunk_result_settles_fulfilled (st : Pool T R) (r : ChunkResult.t T) :
  snd (on_chunk_result options totalChunks st r) = Fulfilled.
Proof.
  unfold on_chunk_result. now rewrite onProgress_returns, onChunkComplete_returns.
Qed.

Lemma admit_chunks_none_rejected (queue : list (Z * list T)) : forall active,
  none_rejected active ->
  none_rejected (snd (admit_chunks options processor queue active)).
Proof.
  induction queue as [| entry queue IH]; intros active Hnone; [exact Hnone |].
  cbn [admit_chunks].
  destruct (len active <? concurrency_of options); [| exact Hnone].
  apply IH. apply Forall_app. split; [exact Hnone |].
  constructor; [| constructor]. intros e. discriminate.
Qed.

Lemma mark_settled_none_rejected (k : Z) (active : list (ActivePromise T)) :
  none_rejected active -> none_rejected (mark_settled k Fulfilled active).
Proof.
  induction 1 as [| p active Hp Hrest IH]; [constructor |].
  cbn [mark_settled]. destruct (is_running k p).
  - constructor; [intros e; discriminate | exact Hrest].
  - constructor; assumption.
Qed.

Lemma settle_none_rejected (k : Z) (st : Pool T R) :
  none_rejected (activePromises st) ->
  none_rejected (activePromises (fst (settle options totalChunks k st))) /\
  forall e, snd (settle options totalChunks k st) <> Some (RejectedWith e).
Proof.
  intros Hnone. unfold settle.
  destruct (find (is_running k) (activePromises st)) as [p |];
    [| split; [exact Hnone | discriminate]].
  pose proof (on_chunk_result_settles_fulfilled st (result p)) as Hs.
  destruct (on_chunk_result options totalChunks st (result p)) as [st' s] eqn:Hfold.
  cbn [snd] in Hs. subst s.
  apply on_chunk_result_frame in Hfold. destruct Hfold as (_ & Hactive & _).
  cbn [fst snd with_active activePromises]. rewrite Hactive.
  split; [now apply mark_settled_none_rejected | discriminate].
Qed.

Lemma run_settles_none_rejected (ks : list Z) : forall (st : Pool T R) winner,
  none_rejected (activePromises st) ->
  (forall e, winner <> Some (RejectedWith e)) ->
  none_rejected (activePromises (fst (run_settles options totalChunks ks st winner))) /\
  forall e, snd (run_settles options totalChunks ks st winner) <> Some (RejectedWith e).
Proof.
  induction ks as [| k ks IH]; intros st winner Hnone Hwinner; [now split |].
  cbn [run_settles].
  destruct (settle_none_rejected k st Hnone) as [Hnone' Hs].
  destruct (settle options totalChunks k st) as [st' s]. cbn [fst snd] in *.
  apply IH; [exact Hnone' |].
  destruct winner; [exact Hwinner | exact Hs].
Qed.

Lemma first_settled_none_rejected (active : list (ActivePromise T)) :
  none_rejected active -> forall e, first_settled active <> Some (RejectedWith e).
Proof.
  intros Hnone e. unfold first_settled.
  destruct (find (fun p => negb (is_pending p)) active) as [p |] eqn:Hfind;
    [| discriminate].
  apply find_some in Hfind. destruct Hfind as [Hin _].
  unfold none_rejected in Hnone. rewrite Forall_forall in Hnone.
  intros [= Hstate]. exact (Hnone p Hin e Hstate).
Qed.

Lemma reap_none_rejected (probe : Z -> bool) (active : list (ActivePromise T)) :
  none_rejected active ->
  exists active', reap probe active = inr active' /\ none_rejected active'.
Proof.
  induction 1 as [| p active Hp Hrest IH]; [exists []; split; [reflexivity | constructor] |].
  destruct IH as (rest' & Hreap & Hnone). cbn [reap]. rewrite Hreap.
  assert (Hkeep : none_rejected (p :: rest')) by (constructor; assumption).
  destruct (state p) as [| | e] eqn:Hstate.
  - now exists (p :: rest').
  - destruct (probe (ChunkResult.chunkIndex (result p))).
    + now exists rest'.
    + now exists (p :: rest').
  - now destruct (Hp e).
Qed.

Lemma is_aborted_false (st : Pool T R) : is_aborted options st = false.
Proof.
  unfold is_aborted.
  destruct (BatchOptions.abortSignal options) as [signal |] eqn:Hsignal;
    [exact (never_aborted signal (turn st) eq_refl) | reflexivity].
Qed.

(** The loop does not end by an exception. *)
Lemma schedule_loop_no_throw (schedule : list Tick) : forall st,
  none_rejected (activePromises st) ->
  is_thrown (snd (schedule_loop options processor totalChunks schedule st)) = false.
Proof.
  induction schedule as [| tick schedule IH]; intros st Hnone; cbn [schedule_loop].
  - now destruct (is_empty (processingQueue st) && is_empty (activePromises st)).
  - destruct (is_empty (processingQueue st) && is_empty (activePromises st));
      [reflexivity |].
    rewrite is_aborted_false.
    assert (Hfill : none_rejected (activePromises (fill options processor st))).
    { unfold fill.
      pose proof (admit_chunks_none_rejected (processingQueue st) _ Hnone) as H.
      now destruct (admit_chunks options processor (processingQueue st)
                      (activePromises st)). }
    destruct (is_empty (activePromises (fill options processor st))).
    { apply IH. exact Hfill. }
    unfold await_race.
    destruct (run_settles_none_rejected (settles tick) (fill options processor st)
                (first_settled (activePromises (fill options processor st))) Hfill
                (first_settled_none_rejected _ Hfill)) as [Hnone2 Hwinner].
    destruct (run_settles options totalChunks (settles tick) _ _) as [st2 winner].
    cbn [fst snd] in *.
    destruct winner as [[| | e] |]; try reflexivity.
    + destruct (reap_none_rejected (probe tick) _ Hnone2) as (active & -> & Hactive).
      apply IH. exact Hactive.
    + destruct (reap_none_rejected (probe tick) _ Hnone2) as (active & -> & Hactive).
      apply IH. exact Hactive.
    + now destruct (Hwinner e).
Qed.
End NoThrow.

(** X23. The errors of the processor never escape: with callbacks that do not
    throw and a signal that is never aborted, [processBatch] throws nothing,
    whatever the processor does and however the chunks complete. *)
Theorem processor_errors_never_escape {T R : Type} (options : BatchOptions.t T)
    (processor : Processor T R) (fuel : nat) (schedule : list Tick) :
  (forall p, call_optional (BatchOptions.onProgress options) p = None) ->
  (forall r, call_optional (BatchOptions.onChunkComplete options) r = None) ->
  (forall signal t, BatchOptions.abortSignal options = Some signal -> signal t = false) ->
  is_thrown (outcome (processBatch options processor fuel schedule)) = false.
Proof.
  intros Hprogress Hchunk Hsignal. unfold processBatch.
  destruct (split_chunks fuel (items_of options) (chunkSize_of options)) as [chunks |];
    [| reflexivity].
  pose proof (schedule_loop_no_throw options processor (len chunks)
                Hprogress Hchunk Hsignal schedule (initial_pool chunks)
                (Forall_nil _)) as Hloop.
  destruct (schedule_loop options processor (len chunks) schedule (initial_pool chunks))
    as [st exit].
  cbn [snd outcome] in *. now destruct exit.
Qed.

Lemma processor_errors_never_escape_witness :
  is_thrown (outcome (processBatch (job [1; 2; 3] 2 (Some silent)) always_fails 4
                        [in_order 2])) = false.
Proof.
  apply processor_errors_never_escape.
  - intros p. reflexivity.
  - intros r. reflexivity.
  - intros signal t Hsignal. discriminate.
Defined.
